(** * Uncompress: a shallow embedding of [src/mma.js]

    The JavaScript module [Mma] decodes the output of Mathematica's
    [Compress[]]: a preprocessor ([Mma.Decompress]), primitive readers
    ([Mma.Decode.Int32], [Mma.Decode.Float64], [Mma.Decode.StringEntry]),
    the tagged-byte state machine [Mma.Decode.Any] and its nested matrix
    reader [ParseMatrixAtLevel].

    Conventions of the embedding.
    - A [Uint8Array] is a [list byte]; it is taken to span its whole
      [ArrayBuffer] (as the result of [bits.slice(4)] in [Mma.Decompress]
      does), so that [new DataView(bits.buffer)] views the same bytes.
    - A JavaScript string made by the module is a [string]: a sequence of
      code units below 256, which is what [String.fromCharCode] yields on
      the bytes of a buffer and what [atob] returns. The text given to
      [Mma.Decompress] comes from outside and may hold any UTF-16 code unit:
      it is a [JS.text], the list of its code units as numbers.
    - Offsets, counts and lengths are [Z]: JavaScript numbers holding
      integers, exact below 2^53.
    - A 64-bit float is a [spec_float], obtained from its IEEE-754 binary64
      bit pattern.
    - The constructors of the seven core types are given the types of the
      arguments the decoder passes them: their branches for [undefined] and
      for arguments of another type are not reached.
    - [Mma.Messages] is threaded as state; [throw] is an outcome of its own;
      the recursion of [Mma.Decode.Any] and its [while] loop are bounded by
      fuel, with [OutOfFuel] the outcome of a run that needs more.
    - [console.log] is output only and is left out.
    - The limits of the engine are left out: a run that exhausts the call
      stack or the heap ends in an error of the engine, a [RangeError],
      which is no outcome of the embedding. *)

From Stdlib Require Import ZArith List Bool Lia.
From Stdlib Require Import Strings.String Strings.Ascii Strings.Byte.
From Stdlib Require Import Floats.SpecFloat.
From Stdlib Require DecimalString.
Import ListNotations.

Local Open Scope string_scope.
Local Open Scope list_scope.
Local Open Scope Z_scope.

(** ** JavaScript built-ins used by the module *)

Module JS.

(** [array.length] as a number. *)
Definition length {A : Type} (l : list A) : Z := Z.of_nat (List.length l).

(** [array[i]]: [None] stands for [undefined] (index out of range or
    negative). *)
Definition get {A : Type} (l : list A) (i : Z) : option A :=
  if i <? 0 then None else nth_error l (Z.to_nat i).

(** Relative index of [TypedArray.prototype.slice], [Array.prototype.slice]
    and [String.prototype.slice]: a negative index counts from the end. *)
Definition relative_index (len k : Z) : Z :=
  if k <? 0 then Z.max (len + k) 0 else Z.min k len.

(** [l.slice(start, end)]. *)
Definition slice {A : Type} (l : list A) (start end_ : Z) : list A :=
  let len := length l in
  let k := relative_index len start in
  let final := relative_index len end_ in
  firstn (Z.to_nat (Z.max (final - k) 0)) (skipn (Z.to_nat k) l).

(** [l.slice(start)]. *)
Definition slice_from {A : Type} (l : list A) (start : Z) : list A :=
  slice l start (length l).

(** [s.substr(start, length)] on the code units of a string; [None] for an
    omitted [length]. *)
Definition substr {A : Type} (l : list A) (start : Z) (len : option Z) : list A :=
  let size := length l in
  let k := relative_index size start in
  let n := match len with
           | None => size - k
           | Some n => Z.min (Z.max n 0) (size - k)
           end in
  firstn (Z.to_nat n) (skipn (Z.to_nat k) l).

(** [get], [slice] and [substr] on strings work on the list of code units. *)
Definition chars (s : string) : list ascii := list_ascii_of_string s.
Definition str (l : list ascii) : string := string_of_list_ascii l.

(** A string that may hold any UTF-16 code unit: the list of its code
    units, numbers from 0 to 65535. [get], [slice] and [substr] apply to it
    as to any list. *)
Definition text : Type := list Z.

(** The code units of a string of code units below 256. *)
Definition units (s : string) : text :=
  map (fun c => Z.of_N (N_of_ascii c)) (chars s).

(** The characters [s.trim()] removes at both ends: [WhiteSpace] and
    [LineTerminator] of ECMAScript, all of them single code units. These
    are TAB, LF, VT, FF, CR, space, no-break space, U+1680, U+2000 to
    U+200A, U+2028, U+2029, U+202F, U+205F, U+3000 and U+FEFF; U+180E has
    not been among them since Unicode 6.3. *)
Definition is_trimmed (u : Z) : bool :=
  ((9 <=? u) && (u <=? 13)) || (u =? 32) || (u =? 160) || (u =? 5760)
  || ((8192 <=? u) && (u <=? 8202)) || (u =? 8232) || (u =? 8233)
  || (u =? 8239) || (u =? 8287) || (u =? 12288) || (u =? 65279).

Fixpoint trimStart (s : text) : text :=
  match s with
  | u :: rest => if is_trimmed u then trimStart rest else s
  | [] => []
  end.

(** [s.trimEnd()] and [s.trim()]. *)
Definition trimEnd (s : text) : text := List.rev (trimStart (List.rev s)).
Definition trim (s : text) : text := trimEnd (trimStart s).

(** [String.fromCharCode(b)] for a byte. *)
Definition fromCharCode (b : byte) : ascii := ascii_of_byte b.

(** [String(n)] for an integer-valued number. *)
Definition String_of_Z (n : Z) : string := DecimalString.NilZero.string_of_int (Z.to_int n).

(** Unsigned value of a byte. *)
Definition byte_val (b : byte) : Z := Z.of_N (Byte.to_N b).

(** Little-endian unsigned value of a run of bytes: the first byte is the
    least significant. *)
Fixpoint le_unsigned (bs : list byte) : Z :=
  match bs with
  | [] => 0
  | b :: rest => Z.lor (byte_val b) (Z.shiftl (le_unsigned rest) 8)
  end.

(** Two's complement reading of a [w]-bit pattern. *)
Definition to_signed (w : Z) (u : Z) : Z :=
  if Z.testbit u (w - 1) then u - Z.shiftl 1 w else u.

(** The bytes a [DataView] accessor of width [w] reads at [offset], or
    [None] where it throws a [RangeError]: a negative offset, or a read
    running past the end of the buffer. *)
Definition view_bytes (buffer : list byte) (offset w : Z) : option (list byte) :=
  if (offset <? 0) || (length buffer <? offset + w) then None
  else Some (firstn (Z.to_nat w) (skipn (Z.to_nat offset) buffer)).

(** [dataview.getInt32(offset, true)]. *)
Definition getInt32_le (buffer : list byte) (offset : Z) : option Z :=
  option_map (fun bs => to_signed 32 (le_unsigned bs)) (view_bytes buffer offset 4).

(** IEEE-754 binary64: sign bit 63, biased exponent in bits 62..52,
    fraction in bits 51..0. *)
Definition float64_of_bits (u : Z) : spec_float :=
  let sign := Z.testbit u 63 in
  let e := Z.land (Z.shiftr u 52) 2047 in
  let m := Z.land u (Z.ones 52) in
  if e =? 0 then
    match m with
    | Zpos p => S754_finite sign p (-1074)
    | _ => S754_zero sign
    end
  else if e =? 2047 then
    (if m =? 0 then S754_infinity sign else S754_nan)
  else
    match Z.lor m (Z.shiftl 1 52) with
    | Zpos p => S754_finite sign p (e - 1075)
    | _ => S754_nan
    end.

(** [dataview.getFloat64(offset, true)]. *)
Definition getFloat64_le (buffer : list byte) (offset : Z) : option spec_float :=
  option_map (fun bs => float64_of_bits (le_unsigned bs)) (view_bytes buffer offset 8).

(** The number [0] as a float. *)
Definition zero : spec_float := S754_zero false.

End JS.

(** ** The module [Mma] *)

Module Mma.

(** *** Error logging

    [Mma.Messages] is a process-wide array of pairs [kind, text]. *)

Definition Message : Type := string * string.
Definition Messages : Type := list Message.

(** What a [throw] carries: the string built by [Mma.Fail], or an exception
    raised by a collaborator ([atob], [pako.inflate]). *)
Inductive exn : Type :=
| MmaError (text : string)
| Native (origin : string).

(** Outcome of a computation that may append to [Mma.Messages] and throw. *)
Inductive outcome (A : Type) : Type :=
| Return (a : A) (log : Messages)
| Throw (e : exn) (log : Messages)
| OutOfFuel.
Arguments Return {A} a log.
Arguments Throw {A} e log.
Arguments OutOfFuel {A}.

Definition M (A : Type) : Type := Messages -> outcome A.

Definition ret {A : Type} (a : A) : M A := fun log => Return a log.

Definition bind {A B : Type} (c : M A) (k : A -> M B) : M B :=
  fun log =>
    match c log with
    | Return a log' => k a log'
    | Throw e log' => Throw e log'
    | OutOfFuel => OutOfFuel
    end.

Definition out_of_fuel {A : Type} : M A := fun _ => OutOfFuel.

Notation "x <- c ;; k" := (bind c (fun x => k))
  (at level 61, c at next level, right associativity).
Notation "c ;;; k" := (bind c (fun _ => k))
  (at level 61, right associativity).

Definition Log (text : string) : M unit :=
  fun log => Return tt (log ++ [("I", text)]).

Definition Warn (text : string) : M unit :=
  fun log => Return tt (log ++ [("W", text)]).

Definition Fail {A : Type} (text : string) : M A :=
  fun log => Throw (MmaError (String.append "Mma.js ERROR: " text)) (log ++ [("E", text)]).

(** A [for (var i = 0; i < bound; i++) body] loop whose body does not assign
    [i]: [trip_count bound] iterations over the variables the body updates.
    A bound that is [undefined] compares false at once. *)
Definition trip_count (bound : option Z) : nat :=
  match bound with
  | Some b => Z.to_nat b
  | None => O
  end.

Fixpoint for_loop {S : Type} (trips : nat) (body : S -> M S) (s : S) : M S :=
  match trips with
  | O => ret s
  | Datatypes.S trips' => s' <- body s ;; for_loop trips' body s'
  end.

(** *** Utility functions *)

Module Util.

(** [Mma.Util.U8ArrayToString]: the code units of the result are the bytes
    of the array; the source converts in chunks of [0x8000] bytes and joins
    the chunks. *)
Definition chunkSize : Z := 32768.

Fixpoint U8ArrayToString_chunks (fuel : nat) (array : list byte) (i : Z) : list string :=
  match fuel with
  | O => []
  | S fuel' =>
      if i <? JS.length array then
        JS.str (map JS.fromCharCode (JS.slice array i (i + chunkSize)))
          :: U8ArrayToString_chunks fuel' array (i + chunkSize)
      else []
  end.

Definition U8ArrayToString (array : list byte) : string :=
  String.concat "" (U8ArrayToString_chunks (List.length array) array 0).

(** [Mma.Util.Base64Decode]: the bytes are the character codes of
    [atob(encoded)]. [atob] is the host's function; it returns the decoded
    string, of code units below 256, or throws ([None]). *)
Definition Base64Decode (atob : JS.text -> option string) (encoded : JS.text)
  : M (list byte) :=
  match atob encoded with
  | Some binary => ret (map byte_of_ascii (JS.chars binary))
  | None => fun log => Throw (Native "atob") log
  end.

(** [Mma.Util.DeleteCharAt]; its one caller applies it to the text given
    to [Mma.Decompress]. *)
Definition DeleteCharAt (string : JS.text) (pos : Z) : JS.text :=
  JS.substr string 0 (Some pos) ++ JS.substr string (pos + 1) None.

End Util.

(** *** The seven core types

    An object built by one of the seven constructors. The decoder passes a
    number to [IntegerMP] and [RealMP] and a string to [IntegerAP], [RealAP],
    [Symbol] and [String], so the fields are typed accordingly; the head of
    an [Expression] is whatever object the constructor accepted. *)

#[warnings="-register-all"]
Inductive Value : Type :=
| IntegerMP (n : Z)
| IntegerAP (nstring : string)
| RealMP (n : spec_float)
| RealAP (nstring : string)
| Symbol (name : string)
| String (str : string)
| Expression (head : Value) (parts : list Value).

(** Primitive values met by the comparisons in the constructors. *)
Inductive number : Type :=
| NaN
| Num (z : Z).

Inductive prim : Type :=
| Undefined
| PNumber (x : number)
| PString (s : string).

(** [a === b] on primitives: operands of different types are never equal,
    and [NaN] is equal to nothing, itself included. *)
Definition strict_equals (a b : prim) : bool :=
  match a, b with
  | Undefined, Undefined => true
  | PNumber (Num x), PNumber (Num y) => x =? y
  | PString s, PString t => String.eqb s t
  | _, _ => false
  end.

(** [input[i]] on a string: a one-character string, or [undefined]. *)
Definition char_at (input : string) (i : Z) : prim :=
  match JS.get (JS.chars input) i with
  | Some c => PString (String.String c "")
  | None => Undefined
  end.

(** White space and line terminators among the code units below 256. *)
Definition is_whitespace (c : ascii) : bool :=
  let n := Z.of_N (N_of_ascii c) in
  ((9 <=? n) && (n <=? 13)) || (n =? 32) || (n =? 160).

Definition is_digit (c : ascii) : bool :=
  let n := Z.of_N (N_of_ascii c) in
  (48 <=? n) && (n <=? 57).

(** [Number(v)] where [v] is [input[i]]: [undefined], or a string of one
    character, which converts to its value if it is a decimal digit, to [0]
    if it is white space, and to [NaN] otherwise. Numbers convert to
    themselves; longer strings do not occur as [input[i]]. *)
Definition Number (v : prim) : number :=
  match v with
  | Undefined => NaN
  | PNumber x => x
  | PString "" => Num 0
  | PString (String.String c "") =>
      if is_digit c then Num (Z.of_N (N_of_ascii c) - 48)
      else if is_whitespace c then Num 0
      else NaN
  | PString _ => NaN
  end.

(** [new Mma.IntegerMP(input)] with [input] a number read by
    [Mma.Decode.Int32]: an integer. *)
Definition new_IntegerMP (input : Z) : M Value := ret (IntegerMP input).

(** The [for] loop of [Mma.IntegerAP] over the characters of [input]. *)
Definition IntegerAP_check_char (input : string) (i : Z) : M Z :=
  (if strict_equals (PNumber (Number (char_at input i))) (PNumber NaN)
   then Fail (String.append "IntegerAP: invalid input, contains non-digit: " input)
   else ret tt) ;;;
  ret (i + 1).

(** [new Mma.IntegerAP(input)] with [input] a string. *)
Definition new_IntegerAP (input : string) : M Value :=
  for_loop (List.length (JS.chars input)) (IntegerAP_check_char input) 0 ;;;
  (if (1 <? JS.length (JS.chars input))
      && strict_equals (char_at input 0) (PNumber (Num 0))
   then Fail (String.append "IntegerAP: input starts with 0: " input)
   else ret tt) ;;;
  ret (IntegerAP input).

(** [new Mma.RealMP(input)] with [input] a number. *)
Definition new_RealMP (input : spec_float) : M Value := ret (RealMP input).

(** [new Mma.RealAP(input)] with [input] a string. *)
Definition new_RealAP (input : string) : M Value :=
  (if (1 <? JS.length (JS.chars input))
      && strict_equals (char_at input 0) (PNumber (Num 0))
   then Fail (String.append "RealAP: input starts with 0: " input)
   else ret tt) ;;;
  ret (RealAP input).

(** [new Mma.Symbol(name)] and [new Mma.String(str)] with a string. *)
Definition new_Symbol (name : string) : M Value := ret (Symbol name).
Definition new_String (str : string) : M Value := ret (String str).

(** [head instanceof Mma.Symbol]; [None] is [undefined]. *)
Definition instanceof_Symbol (head : option Value) : bool :=
  match head with
  | Some (Symbol _) => true
  | _ => false
  end.

(** [new Mma.Expression(head, parts)] with [parts] an [Array] (the second
    check holds by typing). [undefined] is an instance of nothing. When the
    check on [head] fails, [Mma.Fail] throws and no object is built. *)
Definition new_Expression (head : option Value) (parts : list Value) : M Value :=
  match head with
  | Some h =>
      if negb (instanceof_Symbol (Some h))
      then Fail "Expression: head must be an Mma.Symbol"
      else ret (Expression h parts)
  | None => Fail "Expression: head must be an Mma.Symbol"
  end.

(** *** Decoders of the binary encodings *)

Module Decode.

(** [Mma.Decode.Int32]: the [RangeError] of an out-of-range read is caught
    and [0] returned. *)
Definition Int32 (bits : list byte) (offset : Z) : Z :=
  match JS.getInt32_le bits offset with
  | Some n => n
  | None => 0
  end.

(** [Mma.Decode.Float64]. *)
Definition Float64 (bits : list byte) (offset : Z) : spec_float :=
  match JS.getFloat64_le bits offset with
  | Some x => x
  | None => JS.zero
  end.

(** [Mma.Decode.String] with all three arguments given. *)
Definition String (bits : list byte) (offset length : Z) : string :=
  Util.U8ArrayToString (JS.slice bits offset (offset + length)).

Record StringEntryResult : Type := {
  length : Z;
  string : String.string;
  se_bytesRead : Z
}.

(** [Mma.Decode.StringEntry] with [offset] given. *)
Definition StringEntry (bits : list byte) (offset : Z) : StringEntryResult :=
  let length := Int32 bits offset in
  let string := String bits (offset + 4) length in
  {| length := length; string := string; se_bytesRead := length + 4 |}.

(** States of the loop of [Mma.Decode.Any]. *)
Inductive State : Type :=
| READY
| INTEGER_MP
| INTEGER_AP
| REAL_MP
| REAL_AP
| SYMBOL
| STRING
| EXPRESSION
| REAL_MATRIX.

(** The variables the [while] loop updates. [done] is never assigned and
    stays [false]. *)
Record Vars : Type := {
  state : State;
  offset : Z;
  parts : list Value
}.

(** What [Mma.Decode.Any] returns. *)
Record AnyResult : Type := {
  res_parts : list Value;
  bytesRead : Z
}.

(** What [ParseMatrixAtLevel] returns. *)
Record MatrixResult : Type := {
  expr : Value;
  pm_bytesRead : Z
}.

(** [maxParts]: [None] is [Infinity]. *)
Definition lt_maxParts (n : Z) (maxParts : option Z) : bool :=
  match maxParts with
  | Some m => n <? m
  | None => true
  end.

(** The condition of the [while] loop. *)
Definition guard (bits : list byte) (maxParts : option Z) (v : Vars) : bool :=
  (v.(offset) <? JS.length bits) && lt_maxParts (JS.length v.(parts)) maxParts.

(** [String.fromCharCode(next_type)]; [undefined] converts to code 0. *)
Definition type_char (next_type : option byte) : ascii :=
  match next_type with
  | Some b => JS.fromCharCode b
  | None => Ascii.zero
  end.

(** [String(next_type)]. *)
Definition type_text (next_type : option byte) : String.string :=
  match next_type with
  | Some b => JS.String_of_Z (JS.byte_val b)
  | None => "undefined"
  end.

(** The inner [switch] of the [READY] case: the state a type signature
    selects, or [None] for the [default] branch. *)
Definition signature (c : ascii) : option State :=
  if Ascii.eqb c "i" then Some INTEGER_MP
  else if Ascii.eqb c "I" then Some INTEGER_AP
  else if Ascii.eqb c "r" then Some REAL_MP
  else if Ascii.eqb c "R" then Some REAL_AP
  else if Ascii.eqb c "s" then Some SYMBOL
  else if Ascii.eqb c "S" then Some STRING
  else if Ascii.eqb c "f" then Some EXPRESSION
  else if Ascii.eqb c "e" then Some REAL_MATRIX
  else None.

Definition unknown_type_text (next_type : option byte) (offset : Z) : String.string :=
  String.concat ""
    [ "Decode.Any (READY): byte "; type_text next_type;
      " ("; String.String (type_char next_type) "";
      ") at offset "; JS.String_of_Z offset;
      " is not a known type signature" ].

(** The two loops of [ParseMatrixAtLevel], over the list built and the
    offset. *)
Definition read_float (bits : list byte) (s : list Value * Z) : M (list Value * Z) :=
  let '(list, offset) := s in
  let float := Float64 bits offset in
  v <- new_RealMP float ;;
  ret (list ++ [v], offset + 8).

Definition read_sublist (parse : Z -> M MatrixResult) (s : list Value * Z)
  : M (list Value * Z) :=
  let '(list, offset) := s in
  p <- parse offset ;;
  ret (list ++ [p.(expr)], offset + p.(pm_bytesRead)).

Definition finish_list (originalOffset : Z) (s : list Value * Z) : M MatrixResult :=
  let '(list, offset) := s in
  head <- new_Symbol "List" ;;
  e <- new_Expression (Some head) list ;;
  ret {| expr := e; pm_bytesRead := offset - originalOffset |}.

(** [ParseMatrixAtLevel] at a level [0, 1, 2, ...]. *)
Fixpoint ParseMatrixAtLevel_nat (bits : list byte) (sizes : list Z) (level : nat)
    (offset : Z) : M MatrixResult :=
  let originalOffset := offset in
  s <- match level with
       | O =>
           for_loop (trip_count (JS.get sizes (JS.length sizes - 1)))
             (read_float bits) ([], offset)
       | S below =>
           for_loop (trip_count (JS.get sizes (JS.length sizes - Z.of_nat level - 1)))
             (read_sublist (ParseMatrixAtLevel_nat bits sizes below)) ([], offset)
       end ;;
  finish_list originalOffset s.

(** [ParseMatrixAtLevel(bits, offset, sizes, level)]. A negative [level]
    (from a dimension count below 1) is not [0] and takes the [else]
    branch, whose bound [sizes[sizes.length - level - 1]] lies past the end
    of [sizes] and is [undefined]: the loop makes no iteration and its
    body, the only place that would recurse, is never run, so that any
    computation can stand for it. *)
Definition ParseMatrixAtLevel (bits : list byte) (offset : Z) (sizes : list Z)
    (level : Z) : M MatrixResult :=
  if level <? 0 then
    s <- for_loop (trip_count (JS.get sizes (JS.length sizes - level - 1)))
           (fun _ => out_of_fuel) ([], offset) ;;
    finish_list offset s
  else ParseMatrixAtLevel_nat bits sizes (Z.to_nat level) offset.

(** The loop reading the [n] sizes of a matrix. *)
Definition read_size (bits : list byte) (s : list Z * Z) : M (list Z * Z) :=
  let '(sizes, offset) := s in
  ret (sizes ++ [Int32 bits offset], offset + 4).

(** A length-prefixed entry wrapped by the constructor [build]. *)
Definition string_case (build : String.string -> M Value) (bits : list byte)
    (v : Vars) : M Vars :=
  let se := StringEntry bits v.(offset) in
  x <- build se.(string) ;;
  ret {| state := READY;
         offset := v.(offset) + se.(se_bytesRead);
         parts := v.(parts) ++ [x] |}.

(** One iteration of the [while] loop: the [switch] on [state]. [any] is
    the function called recursively in the [EXPRESSION] case. *)
Definition step (any : Z -> option Z -> M AnyResult) (bits : list byte)
    (v : Vars) : M Vars :=
  match v.(state) with
  | READY =>
      let next_type := JS.get bits v.(offset) in
      state' <- match signature (type_char next_type) with
                | Some s => ret s
                | None => Warn (unknown_type_text next_type v.(offset)) ;;; ret READY
                end ;;
      ret {| state := state'; offset := v.(offset) + 1; parts := v.(parts) |}
  | INTEGER_MP =>
      let int := Int32 bits v.(offset) in
      x <- new_IntegerMP int ;;
      ret {| state := READY; offset := v.(offset) + 4; parts := v.(parts) ++ [x] |}
  | INTEGER_AP => string_case new_IntegerAP bits v
  | REAL_MP =>
      let float := Float64 bits v.(offset) in
      x <- new_RealMP float ;;
      ret {| state := READY; offset := v.(offset) + 8; parts := v.(parts) ++ [x] |}
  | REAL_AP => string_case new_RealAP bits v
  | SYMBOL => string_case new_Symbol bits v
  | STRING => string_case new_String bits v
  | EXPRESSION =>
      let exprPartCount := Int32 bits v.(offset) in
      let offset := v.(offset) + 4 in
      exprDec <- any offset (Some (exprPartCount + 1)) ;;
      let offset := offset + exprDec.(bytesRead) in
      let exprHead := JS.get exprDec.(res_parts) 0 in
      let exprParts := JS.slice_from exprDec.(res_parts) 1 in
      x <- new_Expression exprHead exprParts ;;
      ret {| state := READY; offset := offset; parts := v.(parts) ++ [x] |}
  | REAL_MATRIX =>
      let n := Int32 bits v.(offset) in
      let offset := v.(offset) + 4 in
      sz <- for_loop (trip_count (Some n)) (read_size bits) ([], offset) ;;
      let '(sizes, offset) := sz in
      parsedMatrix <- ParseMatrixAtLevel bits offset sizes (n - 1) ;;
      let offset := offset + parsedMatrix.(pm_bytesRead) in
      ret {| state := READY; offset := offset;
             parts := v.(parts) ++ [parsedMatrix.(expr)] |}
  end.

(** The [while] loop, by recursion on fuel. An iteration takes one unit;
    what is left bounds both the recursive call of that iteration, written
    out here as the body of [Mma.Decode.Any], and the iterations after
    it. *)
Fixpoint loop (fuel : nat) (bits : list byte) (maxParts : option Z) (v : Vars)
  : M Vars :=
  match fuel with
  | O => out_of_fuel
  | S fuel' =>
      if guard bits maxParts v then
        v' <- step (fun offset maxParts =>
                      let originalOffset := offset in
                      w <- loop fuel' bits maxParts
                             {| state := READY; offset := offset; parts := [] |} ;;
                      ret {| res_parts := w.(parts);
                             bytesRead := w.(Decode.offset) - originalOffset |})
                   bits v ;;
        loop fuel' bits maxParts v'
      else ret v
  end.

(** [Mma.Decode.Any(bits, offset, maxParts)]; the defaults of the source
    are [offset = 0] and [maxParts = None]. *)
Definition Any (fuel : nat) (bits : list byte) (offset : Z) (maxParts : option Z)
  : M AnyResult :=
  let originalOffset := offset in
  w <- loop fuel bits maxParts {| state := READY; offset := offset; parts := [] |} ;;
  ret {| res_parts := w.(parts); bytesRead := w.(Decode.offset) - originalOffset |}.

End Decode.

(** *** [Mma.Decompress]

    [atob] and [pako.inflate] are collaborators: each yields a result or
    throws ([None]). *)

Section Decompress.

Variable atob : JS.text -> option string.
Variable inflate : list byte -> option (list byte).

(** The string literals of the first loop: a backslash, a line feed and a
    double quote, one character each. *)
Definition backslash : string := String.String "092" "".
Definition newline : string := String.String "010" "".
Definition double_quote : string := String.String "034" "".

(** [compressedString[i] == literal]: [compressedString[i]] is a string of
    one code unit, or [undefined], which equals no string. *)
Definition equals (c : option Z) (literal : string) : bool :=
  match c, JS.units literal with
  | Some u, [v] => u =? v
  | _, _ => false
  end.

(** The test of the [if] in the first loop, on [compressedString[i]]. *)
Definition is_artifact (c : option Z) : bool :=
  equals c backslash || equals c newline || equals c double_quote.

(** The first loop of [Mma.Decompress], from index [i] on. Every iteration
    ends with either [i] one larger or the string one shorter, so that the
    length of the string is fuel enough from index 0. *)
Fixpoint strip_loop (fuel : nat) (compressedString : JS.text) (i : Z) : JS.text :=
  match fuel with
  | O => compressedString
  | S fuel' =>
      if i <? JS.length compressedString then
        if is_artifact (JS.get compressedString i) then
          let compressedString := Util.DeleteCharAt compressedString i in
          let i := i - 1 in
          strip_loop fuel' compressedString (i + 1)
        else strip_loop fuel' compressedString (i + 1)
      else compressedString
  end.

Definition Decompress (compressedString : JS.text) : M (list byte) :=
  let compressedString :=
    strip_loop (List.length compressedString) compressedString 0 in
  let b64EncodedData := JS.slice_from (JS.trim compressedString) 2 in
  bitsCompressed <- Util.Base64Decode atob b64EncodedData ;;
  bits <- match inflate bitsCompressed with
          | Some bits => ret bits
          | None => fun log => Throw (Native "pako.inflate") log
          end ;;
  let headerString := Util.U8ArrayToString (JS.slice bits 0 4) in
  (if negb (String.eqb headerString "!boR")
   then Warn (String.concat ""
                ["Decompress: unknown header string "; headerString;
                 " (expected !boR)"])
   else ret tt) ;;;
  ret (JS.slice_from bits 4).

(** [Mma.DecompressDecode]. *)
Definition DecompressDecode (fuel : nat) (compressedString : JS.text)
  : M Decode.AnyResult :=
  bits <- Decompress compressedString ;;
  Decode.Any fuel bits 0 None.

End Decompress.

End Mma.

(** ** Vocabulary of the statements *)

Import Mma.

(** The eight type signatures of the [READY] case. *)
Definition known_signatures : list byte :=
  ["i"; "I"; "r"; "R"; "s"; "S"; "f"; "e"]%byte.

(** Every [Expression] node of a value has a [Symbol] as its head. *)
Fixpoint symbol_headed (v : Value) : bool :=
  match v with
  | Expression h ps =>
      instanceof_Symbol (Some h)
      && (fix all (l : list Value) : bool :=
            match l with
            | [] => true
            | p :: l' => symbol_headed p && all l'
            end) ps
  | _ => true
  end.

(** [Expression(Symbol("List"), items)]. *)
Definition List_of (items : list Value) : Value := Expression (Symbol "List") items.

(** A value is a nest of [List] expressions of the given dimension sizes,
    outermost first, with [RealMP] leaves. *)
Fixpoint has_shape (sizes : list Z) (v : Value) : Prop :=
  match sizes with
  | [] => exists x, v = RealMP x
  | size :: inner =>
      exists items,
        v = List_of items /\ JS.length items = size /\ Forall (has_shape inner) items
  end.

(** The [RealMP] leaves of a nest of [List] expressions, left to right. *)
Fixpoint leaves (v : Value) : list Value :=
  match v with
  | Expression _ ps => flat_map leaves ps
  | _ => [v]
  end.

(** Product of the dimension sizes. *)
Definition product (sizes : list Z) : Z := fold_right Z.mul 1 sizes.

(** [0, 1, ..., n-1] as numbers. *)
Definition indices (n : Z) : list Z := map Z.of_nat (seq 0 (Z.to_nat n)).

(** The preprocessor in the words of the specification. The characters to
    delete are the backslash, the newline and the double quote, given here
    by their codes. *)
Definition artifact_codes : list Z := [92; 10; 34].

Definition without_artifacts (s : JS.text) : JS.text :=
  filter (fun u => negb (existsb (Z.eqb u) artifact_codes)) s.

(** White space in the sense of ECMAScript, by code point: the [WhiteSpace]
    characters, with those of the Unicode category [Zs], and the
    [LineTerminator] characters. *)
Definition white_space_code_points : list Z :=
  [0x0009; 0x000B; 0x000C; 0xFEFF;
   0x0020; 0x00A0; 0x1680; 0x2000; 0x2001; 0x2002; 0x2003; 0x2004; 0x2005;
   0x2006; 0x2007; 0x2008; 0x2009; 0x200A; 0x202F; 0x205F; 0x3000].

Definition line_terminator_code_points : list Z := [0x000A; 0x000D; 0x2028; 0x2029].

Definition is_space (u : Z) : bool :=
  existsb (Z.eqb u) (white_space_code_points ++ line_terminator_code_points).

(** [s] is [core] surrounded by white space: [lead] and [trail] are white
    space only, and [core] neither begins nor ends with white space. *)
Definition surrounded (s lead core trail : JS.text) : Prop :=
  s = lead ++ core ++ trail /\
  forallb is_space lead = true /\
  forallb is_space trail = true /\
  (forall u rest, core = u :: rest -> is_space u = false) /\
  (forall front u, core = front ++ [u] -> is_space u = false).

(** A stand-in for [atob] that decodes nothing: the string of the code
    units given, which it takes to be below 256. *)
Definition atob_plain (encoded : JS.text) : option string :=
  Some (JS.str (map (fun u => ascii_of_N (Z.to_N u)) encoded)).

(** A buffer given by the values of its bytes. *)
Definition bytes_of (l : list Z) : list byte :=
  map (fun z => match Byte.of_N (Z.to_N z) with Some b => b | None => x00 end) l.

(** The arithmetic value of a little-endian run of bytes. *)
Fixpoint le_sum (bs : list byte) : Z :=
  match bs with
  | [] => 0
  | b :: rest => JS.byte_val b + 256 * le_sum rest
  end.

(** A 32-bit pattern read as a signed integer. *)
Definition int32_of_unsigned (u : Z) : Z :=
  if u <? 2 ^ 31 then u else u - 2 ^ 32.

(** The [w] bytes of a buffer from [offset] on. *)
Definition run (bits : list byte) (offset w : Z) : list byte :=
  firstn (Z.to_nat w) (skipn (Z.to_nat offset) bits).

(** The matrix decoder in the words of the specification: at the innermost
    level a run of consecutive floats, at an outer level [size] sub-lists
    one after the other, each wrapped in a [List]. [offset] is where the
    floats of the nest begin. *)
Fixpoint nest (bits : list byte) (sizes : list Z) (offset : Z) : Value :=
  match sizes with
  | [] => RealMP (Decode.Float64 bits offset)
  | size :: inner =>
      List_of (map (fun i => nest bits inner (offset + i * (8 * product inner)))
                 (indices size))
  end.

(** A symbol entry whose length field is -5: the signature [s] followed by
    [FB FF FF FF]. *)
Definition negative_length_entry : list byte := bytes_of [115; 251; 255; 255; 255].

(** An expression of one part whose head is a symbol entry of length -10:
    [f], the part count 1, [s], then [F6 FF FF FF]. *)
Definition negative_length_head : list byte :=
  bytes_of [102; 1; 0; 0; 0; 115; 246; 255; 255; 255].

(** The integer a float stands for, when it stands for one. *)
Definition integer_value (x : spec_float) : option Z :=
  match x with
  | S754_zero _ => Some 0
  | S754_finite s m e =>
      let scaled :=
        if 0 <=? e then Some (Z.pos m * 2 ^ e)
        else if Z.pos m mod 2 ^ (- e) =? 0 then Some (Z.pos m / 2 ^ (- e))
        else None in
      option_map (fun z => if s then - z else z) scaled
  | _ => None
  end.

(** The spec's example of a matrix: signature [e], 2 dimensions, sizes 2
    and 3, then the floats 1 to 6. *)
Definition matrix_2_by_3 : list byte :=
  bytes_of ([101; 2; 0; 0; 0; 2; 0; 0; 0; 3; 0; 0; 0]
            ++ [0; 0; 0; 0; 0; 0; 240; 63] ++ [0; 0; 0; 0; 0; 0; 0; 64]
            ++ [0; 0; 0; 0; 0; 0; 8; 64] ++ [0; 0; 0; 0; 0; 0; 16; 64]
            ++ [0; 0; 0; 0; 0; 0; 20; 64] ++ [0; 0; 0; 0; 0; 0; 24; 64]).

(** The first four bytes of a buffer are the marker [!boR]. *)
Definition has_marker (bits : list byte) : bool :=
  match firstn 4 bits with
  | [a; b; c; d] =>
      Byte.eqb a "!" && Byte.eqb b "b" && Byte.eqb c "o" && Byte.eqb d "R"
  | _ => false
  end.

(** ** Vocabulary of the further statements *)

(** The text of a run of bytes: one character per byte, of the same code. *)
Definition text_of (bytes : list byte) : string := JS.str (map JS.fromCharCode bytes).

(** The constructor a signature of a length-prefixed entry selects. *)
Definition string_constructor (b : byte) : option (string -> Value) :=
  if Byte.eqb b "I" then Some IntegerAP
  else if Byte.eqb b "R" then Some RealAP
  else if Byte.eqb b "s" then Some Symbol
  else if Byte.eqb b "S" then Some String
  else None.

(** The text of the one error [Mma.Decode.Any] can raise. *)
Definition head_error : string := "Expression: head must be an Mma.Symbol".

(** A message is a warning. *)
Definition is_warning (m : Message) : Prop := fst m = "W".

(** An outcome that has added to the log either warnings only, or warnings
    and then the error about the head of an expression, which it throws. *)
Definition warns_or_fails_on_head {A : Type} (log : Messages) (o : outcome A) : Prop :=
  match o with
  | Return _ log' => exists warnings, log' = log ++ warnings /\ Forall is_warning warnings
  | Throw e log' =>
      e = MmaError (String.append "Mma.js ERROR: " head_error) /\
      exists warnings,
        log' = log ++ warnings ++ [("E", head_error)] /\ Forall is_warning warnings
  | OutOfFuel => True
  end.


(** Every [IntegerMP] of a value, at any depth, holds a signed 32-bit
    integer. *)
Fixpoint integers_are_int32 (v : Value) : bool :=
  match v with
  | IntegerMP n => (- 2 ^ 31 <=? n) && (n <? 2 ^ 31)
  | Expression h ps =>
      integers_are_int32 h
      && (fix all (l : list Value) : bool :=
            match l with
            | [] => true
            | p :: l' => integers_are_int32 p && all l'
            end) ps
  | _ => true
  end.

(** [maxParts] raised by [m]. *)
Definition more_parts (m : Z) (maxParts : option Z) : option Z :=
  option_map (Z.add m) maxParts.

(** The warnings logged on the way from offset [- k] up to offset 0. *)
Definition undefined_warnings (k : nat) : Messages :=
  map (fun i => ("W", Decode.unknown_type_text None (Z.of_nat i - Z.of_nat k)))
      (seq 0 k).

(** The variables [v] of the loop with the values [pre] in front of its
    parts. *)
Definition with_parts_before (pre : list Value) (v : Decode.Vars) : Decode.Vars :=
  {| Decode.state := Decode.state v; Decode.offset := Decode.offset v;
     Decode.parts := pre ++ Decode.parts v |}.

(** The floats held by the [RealMP] values of a value, left to right; the
    head of an expression is not searched. *)
Fixpoint floats (v : Value) : list spec_float :=
  match v with
  | RealMP x => [x]
  | Expression _ ps => flat_map floats ps
  | _ => []
  end.


(** ** Facts about the built-ins *)

Section Builtins.

Context {A : Type}.

Lemma length_nonneg (l : list A) : 0 <= JS.length l.
Proof. unfold JS.length. lia. Qed.

Lemma length_app (l1 l2 : list A) : JS.length (l1 ++ l2) = JS.length l1 + JS.length l2.
Proof. unfold JS.length. rewrite List.length_app. lia. Qed.

Lemma get_in_range (l : list A) (i : Z) (a : A) :
  JS.get l i = Some a -> 0 <= i < JS.length l.
Proof.
  unfold JS.get, JS.length. destruct (Z.ltb_spec i 0); [discriminate|].
  intros H0. assert (Z.to_nat i < List.length l)%nat.
  { apply nth_error_Some. congruence. }
  lia.
Qed.

Lemma get_out_of_range (l : list A) (i : Z) :
  i < 0 \/ JS.length l <= i -> JS.get l i = None.
Proof.
  unfold JS.get, JS.length. intros H. destruct (Z.ltb_spec i 0); [reflexivity|].
  apply nth_error_None. lia.
Qed.

Lemma slice_from_skipn (l : list A) (k : Z) :
  0 <= k -> JS.slice_from l k = skipn (Z.to_nat k) l.
Proof.
  intros Hk. unfold JS.slice_from, JS.slice, JS.relative_index.
  pose proof (length_nonneg l) as Hl. unfold JS.length in *.
  destruct (Z.ltb_spec k 0); [lia|].
  destruct (Z.ltb_spec (Z.of_nat (List.length l)) 0); [lia|].
  rewrite Z.min_id. rewrite firstn_all2 by (rewrite length_skipn; lia).
  destruct (Z.le_ge_cases k (Z.of_nat (List.length l))).
  - rewrite Z.min_l by lia. reflexivity.
  - rewrite Z.min_r by lia. rewrite !skipn_all2 by lia. reflexivity.
Qed.

Lemma slice_firstn (l : list A) (k : Z) :
  0 <= k -> JS.slice l 0 k = firstn (Z.to_nat k) l.
Proof.
  intros Hk. unfold JS.slice, JS.relative_index.
  pose proof (length_nonneg l) as Hl. unfold JS.length in *.
  simpl (0 <? 0). cbv iota.
  destruct (Z.ltb_spec k 0); [lia|].
  rewrite (Z.min_l 0) by lia. simpl skipn. rewrite Z.sub_0_r.
  destruct (Z.le_ge_cases k (Z.of_nat (List.length l))).
  - rewrite Z.min_l, Z.max_l by lia. reflexivity.
  - rewrite Z.min_r, Z.max_l by lia.
    rewrite !firstn_all2 by lia. reflexivity.
Qed.

End Builtins.

Lemma byte_val_range (b : byte) : 0 <= JS.byte_val b < 256.
Proof.
  unfold JS.byte_val. pose proof (Byte.to_N_bounded b). lia.
Qed.

(** Joining a byte below 256 with a pattern shifted by eight bits adds
    them. *)
Lemma lor_shiftl_8 (a u : Z) :
  0 <= a < 256 -> 0 <= u -> Z.lor a (Z.shiftl u 8) = a + 256 * u.
Proof.
  intros Ha Hu.
  assert (Z.land a (Z.shiftl u 8) = 0) as Hdisjoint.
  { apply Z.bits_inj'. intros n Hn. rewrite Z.land_spec, Z.bits_0.
    destruct (Z.ltb_spec n 8).
    - rewrite Z.shiftl_spec_low by lia. apply andb_false_r.
    - destruct (Z.eq_dec a 0) as [->|Hnz]; [now rewrite Z.bits_0|].
      rewrite (Z.bits_above_log2 a n); [reflexivity | lia |].
      apply Z.lt_le_trans with 8; [|lia].
      apply Z.log2_lt_pow2; lia. }
  rewrite <- Z.lxor_lor, <- Z.add_nocarry_lxor by assumption.
  rewrite Z.shiftl_mul_pow2 by lia. change (2 ^ 8) with 256. lia.
Qed.

Lemma le_sum_range (bs : list byte) : 0 <= le_sum bs < 256 ^ JS.length bs.
Proof.
  induction bs as [|b bs IH].
  - simpl. unfold JS.length. simpl. lia.
  - cbn [le_sum]. pose proof (byte_val_range b).
    replace (JS.length (b :: bs)) with (Z.succ (JS.length bs))
      by (unfold JS.length; simpl List.length; lia).
    rewrite Z.pow_succ_r by apply length_nonneg.
    set (P := 256 ^ JS.length bs) in *. lia.
Qed.

Lemma le_unsigned_sum (bs : list byte) : JS.le_unsigned bs = le_sum bs.
Proof.
  induction bs as [|b bs IH]; [reflexivity|].
  cbn [JS.le_unsigned le_sum]. rewrite IH. apply lor_shiftl_8.
  - apply byte_val_range.
  - apply le_sum_range.
Qed.

(** Two's complement by comparison. *)
Lemma to_signed_32 (u : Z) :
  0 <= u < 2 ^ 32 ->
  JS.to_signed 32 u = if u <? 2 ^ 31 then u else u - 2 ^ 32.
Proof.
  intros Hu. unfold JS.to_signed.
  change (32 - 1) with 31. rewrite Z.shiftl_1_l.
  destruct (Z.ltb_spec u (2 ^ 31)) as [Hlt|Hge].
  - replace (Z.testbit u 31) with false; [reflexivity|].
    symmetry. apply Z.testbit_false; [lia|].
    rewrite Z.div_small by lia. reflexivity.
  - replace (Z.testbit u 31) with true; [reflexivity|].
    symmetry. apply Z.testbit_true; [lia|].
    assert (u / 2 ^ 31 = 1) as ->; [|reflexivity].
    symmetry. apply Z.div_unique with (r := u - 2 ^ 31); lia.
Qed.

(** ** The primitive decoders *)

Lemma view_bytes_in_range (bits : list byte) (offset w : Z) :
  0 <= offset -> offset + w <= JS.length bits ->
  JS.view_bytes bits offset w = Some (run bits offset w).
Proof.
  intros H0 H1. unfold JS.view_bytes.
  destruct (Z.ltb_spec offset 0); [lia|].
  destruct (Z.ltb_spec (JS.length bits) (offset + w)); [lia|].
  reflexivity.
Qed.

Lemma view_bytes_past_end (bits : list byte) (offset w : Z) :
  JS.length bits < offset + w -> JS.view_bytes bits offset w = None.
Proof.
  intros H. unfold JS.view_bytes.
  destruct (Z.ltb_spec (JS.length bits) (offset + w)); [|lia].
  now rewrite orb_true_r.
Qed.

Lemma run_length (bits : list byte) (offset w : Z) :
  0 <= offset -> 0 <= w -> offset + w <= JS.length bits ->
  JS.length (run bits offset w) = w.
Proof.
  intros H0 Hw H1. unfold run, JS.length in *.
  rewrite firstn_length_le; [lia|]. rewrite length_skipn. lia.
Qed.

Lemma Int32_in_range (bits : list byte) (offset : Z) :
  0 <= offset -> offset + 4 <= JS.length bits ->
  Decode.Int32 bits offset = int32_of_unsigned (le_sum (run bits offset 4)).
Proof.
  intros H0 H1. unfold Decode.Int32, JS.getInt32_le.
  rewrite view_bytes_in_range by assumption. cbn [option_map].
  rewrite le_unsigned_sum. apply to_signed_32.
  pose proof (le_sum_range (run bits offset 4)) as Hr.
  rewrite run_length in Hr by lia. exact Hr.
Qed.

Lemma Int32_past_end (bits : list byte) (offset : Z) :
  JS.length bits < offset + 4 -> Decode.Int32 bits offset = 0.
Proof.
  intros H. unfold Decode.Int32, JS.getInt32_le.
  now rewrite view_bytes_past_end.
Qed.

Lemma Int32_range (bits : list byte) (offset : Z) :
  - 2 ^ 31 <= Decode.Int32 bits offset < 2 ^ 31.
Proof.
  destruct (Z.ltb_spec offset 0) as [Hneg|Hpos].
  - unfold Decode.Int32, JS.getInt32_le, JS.view_bytes.
    destruct (Z.ltb_spec offset 0); [|lia]. cbn. lia.
  - destruct (Z.ltb_spec (JS.length bits) (offset + 4)) as [Hend|Hin].
    + rewrite Int32_past_end by assumption. lia.
    + rewrite Int32_in_range by assumption.
      pose proof (le_sum_range (run bits offset 4)) as Hr.
      rewrite run_length in Hr by lia.
      unfold int32_of_unsigned. change (256 ^ 4) with (2 ^ 32) in Hr.
      destruct (Z.ltb_spec (le_sum (run bits offset 4)) (2 ^ 31)); lia.
Qed.

Lemma Float64_in_range (bits : list byte) (offset : Z) :
  0 <= offset -> offset + 8 <= JS.length bits ->
  Decode.Float64 bits offset = JS.float64_of_bits (le_sum (run bits offset 8)).
Proof.
  intros H0 H1. unfold Decode.Float64, JS.getFloat64_le.
  rewrite view_bytes_in_range by assumption. cbn [option_map].
  now rewrite le_unsigned_sum.
Qed.

Lemma Float64_past_end (bits : list byte) (offset : Z) :
  JS.length bits < offset + 8 -> Decode.Float64 bits offset = S754_zero false.
Proof.
  intros H. unfold Decode.Float64, JS.getFloat64_le.
  now rewrite view_bytes_past_end.
Qed.

(** Known binary64 patterns: 1, -2.5, the infinities, a NaN, the zeros and
    the smallest subnormal. *)
Example float64_patterns :
  JS.float64_of_bits 0x3FF0000000000000 = S754_finite false (2 ^ 52) (-52) /\
  JS.float64_of_bits 0xC004000000000000 = S754_finite true (5 * 2 ^ 50) (-51) /\
  JS.float64_of_bits 0x7FF0000000000000 = S754_infinity false /\
  JS.float64_of_bits 0xFFF0000000000000 = S754_infinity true /\
  JS.float64_of_bits 0x7FF8000000000000 = S754_nan /\
  JS.float64_of_bits 0 = S754_zero false /\
  JS.float64_of_bits 0x8000000000000000 = S754_zero true /\
  JS.float64_of_bits 1 = S754_finite false 1 (-1074).
Proof. repeat split; reflexivity. Qed.

(** C6. A read running past the end of the buffer makes [Mma.Decode.Int32]
    return 0 and [Mma.Decode.Float64] return 0.0, without an exception; a
    read inside the buffer returns the little-endian signed 32-bit integer,
    respectively the little-endian binary64 float, of the bytes at the
    offset. Either way the integer returned is a signed 32-bit one. *)
Theorem Int32_Float64_contract (bits : list byte) (offset : Z) :
  (JS.length bits < offset + 4 -> Decode.Int32 bits offset = 0) /\
  (JS.length bits < offset + 8 -> Decode.Float64 bits offset = S754_zero false) /\
  (0 <= offset -> offset + 4 <= JS.length bits ->
   Decode.Int32 bits offset = int32_of_unsigned (le_sum (run bits offset 4))) /\
  (0 <= offset -> offset + 8 <= JS.length bits ->
   Decode.Float64 bits offset = JS.float64_of_bits (le_sum (run bits offset 8))) /\
  - 2 ^ 31 <= Decode.Int32 bits offset < 2 ^ 31.
Proof.
  split; [apply Int32_past_end|].
  split; [apply Float64_past_end|].
  split; [apply Int32_in_range|].
  split; [apply Float64_in_range | apply Int32_range].
Qed.

Lemma Int32_Float64_contract_witness :
  Decode.Int32 (bytes_of [105; 1; 0]) 1 = 0 /\
  Decode.Float64 (bytes_of [114; 0; 0; 0; 0; 0; 240; 63]) 1 = S754_zero false /\
  Decode.Int32 (bytes_of [105; 254; 255; 255; 255]) 1 = -2 /\
  Decode.Float64 (bytes_of [114; 0; 0; 0; 0; 0; 0; 4; 192]) 1
    = S754_finite true (5 * 2 ^ 50) (-51).
Proof.
  split; [|split; [|split]].
  - apply (Int32_Float64_contract (bytes_of [105; 1; 0]) 1). reflexivity.
  - apply (Int32_Float64_contract (bytes_of [114; 0; 0; 0; 0; 0; 240; 63]) 1).
    reflexivity.
  - rewrite (proj1 (proj2 (proj2
      (Int32_Float64_contract (bytes_of [105; 254; 255; 255; 255]) 1)))).
    + reflexivity.
    + lia.
    + vm_compute. discriminate.
  - rewrite (proj1 (proj2 (proj2 (proj2
      (Int32_Float64_contract (bytes_of [114; 0; 0; 0; 0; 0; 0; 4; 192]) 1))))).
    + reflexivity.
    + lia.
    + vm_compute. discriminate.
Defined.

(** ** The monad of the embedding *)

Lemma bind_Return {A B : Type} (c : M A) (k : A -> M B) (log log' : Messages) (b : B) :
  bind c k log = Return b log' ->
  exists a log1, c log = Return a log1 /\ k a log1 = Return b log'.
Proof.
  unfold bind. destruct (c log) as [a log1| |]; try discriminate. eauto.
Qed.

Lemma bind_of_Return {A B : Type} (c : M A) (k : A -> M B) (log log1 : Messages) (a : A) :
  c log = Return a log1 -> bind c k log = k a log1.
Proof. unfold bind. now intros ->. Qed.

Lemma bind_eq {A B : Type} (c c' : M A) (k : A -> M B) (log : Messages) :
  c log = c' log -> bind c k log = bind c' k log.
Proof. unfold bind. now intros ->. Qed.

Lemma bind_assoc {A B C : Type} (c : M A) (k1 : A -> M B) (k2 : B -> M C)
    (log : Messages) :
  bind (bind c k1) k2 log = bind c (fun a => bind (k1 a) k2) log.
Proof. unfold bind. destruct (c log); reflexivity. Qed.

Lemma bind_OutOfFuel {A B : Type} (c : M A) (k : A -> M B) (log : Messages) :
  c log = OutOfFuel -> bind c k log = OutOfFuel.
Proof. unfold bind. now intros ->. Qed.

Lemma for_loop_S {S : Type} (n : nat) (body : S -> M S) (s : S) (log : Messages) :
  for_loop (Datatypes.S n) body s log = bind (body s) (for_loop n body) log.
Proof. reflexivity. Qed.

(** A loop whose body neither throws nor logs keeps any invariant the body
    keeps. *)
Lemma for_loop_invariant {S : Type} (P : S -> Prop) (body : S -> M S) (n : nat) :
  (forall s log, P s -> exists s', body s log = Return s' log /\ P s') ->
  forall s log, P s -> exists s', for_loop n body s log = Return s' log /\ P s'.
Proof.
  intros Hbody. induction n as [|n IH]; intros s log Hs.
  - exists s. split; [reflexivity | assumption].
  - destruct (Hbody s log Hs) as (s1 & Hrun & Hs1).
    destruct (IH s1 log Hs1) as (s2 & Hrest & Hs2).
    exists s2. split; [|assumption].
    rewrite for_loop_S. now rewrite (bind_of_Return _ _ _ _ _ Hrun).
Qed.

(** ** The constructors *)

(** Nothing is strictly equal to [NaN]. *)
Lemma strict_equals_NaN (x : prim) : strict_equals x (PNumber NaN) = false.
Proof. destruct x as [|[|z]|s]; reflexivity. Qed.

(** A character of a string is never strictly equal to a number. *)
Lemma char_at_not_number (input : string) (i : Z) (x : number) :
  strict_equals (char_at input i) (PNumber x) = false.
Proof.
  unfold char_at. destruct (JS.get (JS.chars input) i); reflexivity.
Qed.

Lemma IntegerAP_check_char_passes (input : string) (i : Z) (log : Messages) :
  IntegerAP_check_char input i log = Return (i + 1) log.
Proof.
  unfold IntegerAP_check_char. now rewrite strict_equals_NaN.
Qed.

(** The checks of [Mma.IntegerAP] pass on every string. *)
Lemma new_IntegerAP_returns (input : string) (log : Messages) :
  new_IntegerAP input log = Return (IntegerAP input) log.
Proof.
  unfold new_IntegerAP.
  destruct (for_loop_invariant (fun _ => True) (IntegerAP_check_char input)
              (List.length (JS.chars input))) with (s := 0) (log := log)
    as (i & Hloop & _); [| exact I |].
  - intros s l _. exists (s + 1). split; [apply IntegerAP_check_char_passes | exact I].
  - rewrite (bind_of_Return _ _ _ _ _ Hloop).
    now rewrite char_at_not_number, andb_false_r.
Qed.

Lemma new_RealAP_returns (input : string) (log : Messages) :
  new_RealAP input log = Return (RealAP input) log.
Proof.
  unfold new_RealAP. now rewrite char_at_not_number, andb_false_r.
Qed.

Lemma new_Expression_Return (head : option Value) (parts : list Value)
    (log log' : Messages) (v : Value) :
  new_Expression head parts log = Return v log' ->
  exists name, head = Some (Symbol name) /\ v = Expression (Symbol name) parts
               /\ log' = log.
Proof.
  unfold new_Expression.
  destruct head as [h|]; [|discriminate].
  destruct h; try discriminate.
  cbn. intros [= <- <-]. eauto.
Qed.

(** ** Strings and slices *)

Lemma slice_nonneg {A : Type} (l : list A) (a b : Z) :
  0 <= a -> a <= b ->
  JS.slice l a b = firstn (Z.to_nat (b - a)) (skipn (Z.to_nat a) l).
Proof.
  intros Ha Hb. unfold JS.slice, JS.relative_index.
  pose proof (length_nonneg l) as Hl. unfold JS.length in *.
  destruct (Z.ltb_spec a 0); [lia|]. destruct (Z.ltb_spec b 0); [lia|].
  destruct (Z.le_gt_cases (Z.of_nat (List.length l)) a) as [Hout|Hin].
  - rewrite (Z.min_r a) by lia.
    rewrite !skipn_all2 by lia. now rewrite !firstn_nil.
  - rewrite (Z.min_l a) by lia.
    destruct (Z.le_gt_cases b (Z.of_nat (List.length l))).
    + rewrite Z.min_l, Z.max_l by lia. reflexivity.
    + rewrite Z.min_r, Z.max_l by lia.
      rewrite !firstn_all2 by (rewrite length_skipn; lia). reflexivity.
Qed.

Lemma concat_empty_cons (a : string) (l : list string) :
  String.concat "" (a :: l) = (a ++ String.concat "" l)%string.
Proof.
  destruct l as [|b l]; cbn [String.concat].
  - clear. induction a as [|c a IH]; [reflexivity|]. cbn. now rewrite <- IH.
  - reflexivity.
Qed.

Lemma str_app (l1 l2 : list ascii) :
  JS.str (l1 ++ l2) = (JS.str l1 ++ JS.str l2)%string.
Proof.
  unfold JS.str. induction l1 as [|c l1 IH]; [reflexivity|].
  cbn [app string_of_list_ascii String.append]. now rewrite IH.
Qed.

Lemma U8ArrayToString_chunks_join (array : list byte) (fuel : nat) :
  forall i,
    0 <= i ->
    (List.length array - Z.to_nat i <= fuel)%nat ->
    String.concat "" (Util.U8ArrayToString_chunks fuel array i)
    = JS.str (map JS.fromCharCode (skipn (Z.to_nat i) array)).
Proof.
  induction fuel as [|fuel IH]; intros i Hi Hfuel.
  - rewrite skipn_all2 by lia. reflexivity.
  - cbn [Util.U8ArrayToString_chunks].
    destruct (Z.ltb_spec i (JS.length array)) as [Hin|Hout].
    + rewrite concat_empty_cons, IH by (unfold Util.chunkSize, JS.length in *; lia).
      rewrite slice_nonneg by (unfold Util.chunkSize; lia).
      rewrite <- str_app, <- map_app. do 2 f_equal.
      replace (Z.to_nat (i + Util.chunkSize))
        with (Z.to_nat (i + Util.chunkSize - i) + Z.to_nat i)%nat
        by (unfold Util.chunkSize; lia).
      rewrite <- skipn_skipn. apply firstn_skipn.
    + rewrite skipn_all2 by (unfold JS.length in *; lia). reflexivity.
Qed.

(** [Mma.Util.U8ArrayToString] maps every byte to the character of that
    code. *)
Lemma U8ArrayToString_map (array : list byte) :
  Util.U8ArrayToString array = JS.str (map JS.fromCharCode array).
Proof.
  unfold Util.U8ArrayToString.
  now rewrite U8ArrayToString_chunks_join by (cbn; lia).
Qed.

Lemma chars_str (l : list ascii) : JS.chars (JS.str l) = l.
Proof. apply list_ascii_of_string_of_list_ascii. Qed.

Lemma str_chars (s : string) : JS.str (JS.chars s) = s.
Proof. apply string_of_list_ascii_of_string. Qed.

Lemma substr_prefix {A : Type} (l : list A) (n : Z) :
  0 <= n <= JS.length l -> JS.substr l 0 (Some n) = firstn (Z.to_nat n) l.
Proof.
  intros Hn. unfold JS.substr, JS.relative_index.
  change (0 <? 0) with false. cbv iota.
  rewrite (Z.min_l 0) by lia. rewrite Z.sub_0_r, Z.max_l, Z.min_l by lia.
  reflexivity.
Qed.

Lemma substr_suffix {A : Type} (l : list A) (k : Z) :
  0 <= k <= JS.length l -> JS.substr l k None = skipn (Z.to_nat k) l.
Proof.
  intros Hk. unfold JS.substr, JS.relative_index.
  destruct (Z.ltb_spec k 0); [lia|]. rewrite Z.min_l by lia.
  apply firstn_all2. rewrite length_skipn. unfold JS.length in *. lia.
Qed.

Lemma DeleteCharAt_chars (s : JS.text) (pos : Z) :
  0 <= pos < JS.length s ->
  Util.DeleteCharAt s pos = firstn (Z.to_nat pos) s ++ skipn (S (Z.to_nat pos)) s.
Proof.
  intros Hpos. unfold Util.DeleteCharAt.
  rewrite substr_prefix, substr_suffix by lia.
  do 2 f_equal. lia.
Qed.

(** C1. [Mma.IntegerAP] is meant to reject a string with a non-digit or with
    a leading zero, but its two tests never hold: [Number(c) === NaN] is
    false for every [c], and [input[0] === 0] compares a string with a
    number. The constructor therefore accepts ["007"] and ["12a"] as it
    accepts ["0"] and ["123"], and indeed every string; a buffer holding the
    entry ["007"] decodes without an error. *)
Theorem IntegerAP_accepts_every_string :
  new_IntegerAP "007" [] = Return (IntegerAP "007") [] /\
  new_IntegerAP "12a" [] = Return (IntegerAP "12a") [] /\
  new_IntegerAP "0" [] = Return (IntegerAP "0") [] /\
  new_IntegerAP "123" [] = Return (IntegerAP "123") [] /\
  Decode.Any 3 (bytes_of [73; 3; 0; 0; 0; 48; 48; 55]) 0 None []
  = Return {| Decode.res_parts := [IntegerAP "007"]; Decode.bytesRead := 8 |} [] /\
  (forall input log, new_IntegerAP input log = Return (IntegerAP input) log).
Proof.
  repeat split; try reflexivity. exact new_IntegerAP_returns.
Qed.

(** ** The loop of [Mma.Decode.Any] *)

Lemma loop_S (fuel : nat) (bits : list byte) (maxParts : option Z) (v : Decode.Vars) :
  Decode.loop (S fuel) bits maxParts v
  = if Decode.guard bits maxParts v
    then bind (Decode.step (Decode.Any fuel bits) bits v) (Decode.loop fuel bits maxParts)
    else ret v.
Proof. reflexivity. Qed.

(** The loop leaves at once when its condition is false. *)
Lemma loop_exit (fuel : nat) (bits : list byte) (maxParts : option Z)
    (v : Decode.Vars) (log : Messages) :
  Decode.guard bits maxParts v = false ->
  Decode.loop (S fuel) bits maxParts v log = Return v log.
Proof. intros H. rewrite loop_S, H. reflexivity. Qed.

(** The loop runs its body when its condition is true. *)
Lemma loop_iterate (fuel : nat) (bits : list byte) (maxParts : option Z)
    (v : Decode.Vars) (log : Messages) :
  Decode.guard bits maxParts v = true ->
  Decode.loop (S fuel) bits maxParts v log
  = bind (Decode.step (Decode.Any fuel bits) bits v)
      (Decode.loop fuel bits maxParts) log.
Proof. intros H. rewrite loop_S, H. reflexivity. Qed.

(** The loop returns only with its condition false. *)
Lemma loop_Return_guard (fuel : nat) (bits : list byte) (maxParts : option Z) :
  forall (v v' : Decode.Vars) (log log' : Messages),
    Decode.loop fuel bits maxParts v log = Return v' log' ->
    Decode.guard bits maxParts v' = false.
Proof.
  induction fuel as [|fuel IH]; intros v v' log log' H; [discriminate|].
  rewrite loop_S in H.
  destruct (Decode.guard bits maxParts v) eqn:Hg.
  - apply bind_Return in H. destruct H as (v1 & log1 & _ & H). eauto.
  - injection H as <- <-. assumption.
Qed.

Lemma guard_true (bits : list byte) (maxParts : option Z) (v : Decode.Vars) :
  Decode.guard bits maxParts v = true <->
  Decode.offset v < JS.length bits /\
  (forall m, maxParts = Some m -> JS.length (Decode.parts v) < m).
Proof.
  unfold Decode.guard, Decode.lt_maxParts. rewrite andb_true_iff, Z.ltb_lt.
  destruct maxParts as [m|].
  - rewrite Z.ltb_lt. split.
    + intros [H1 H2]. split; [assumption|]. now intros ? [= <-].
    + intros [H1 H2]. auto.
  - split; intros [H1 H2]; split; auto. discriminate.
Qed.

Lemma guard_false (bits : list byte) (maxParts : option Z) (v : Decode.Vars) :
  Decode.guard bits maxParts v = false <->
  JS.length bits <= Decode.offset v \/
  (exists m, maxParts = Some m /\ m <= JS.length (Decode.parts v)).
Proof.
  unfold Decode.guard, Decode.lt_maxParts. rewrite andb_false_iff, Z.ltb_ge.
  destruct maxParts as [m|].
  - rewrite Z.ltb_ge. split.
    + intros [H|H]; [now left | right; eauto].
    + intros [H|(m' & [= <-] & H)]; auto.
  - split.
    + intros [H|H]; [now left | discriminate].
    + intros [H|(m' & [=] & _)]. now left.
Qed.

(** A call that returns at least one value started inside the buffer. *)
Lemma Any_nonempty_in_range (fuel : nat) (bits : list byte) (offset : Z)
    (maxParts : option Z) (log log' : Messages) (r : Decode.AnyResult) :
  Decode.Any fuel bits offset maxParts log = Return r log' ->
  Decode.res_parts r <> [] ->
  offset < JS.length bits.
Proof.
  unfold Decode.Any. intros H Hne. apply bind_Return in H.
  destruct H as (v & log1 & Hloop & H). injection H as <- _.
  destruct fuel as [|fuel]; [discriminate|].
  rewrite loop_S in Hloop.
  destruct (Decode.guard _ _ _) eqn:Hguard in Hloop.
  - apply guard_true in Hguard. apply Hguard.
  - injection Hloop as <- _. now elim Hne.
Qed.

(** ** The [READY] case *)

Lemma signature_known (b : byte) :
  In b known_signatures -> exists s, Decode.signature (JS.fromCharCode b) = Some s
                                     /\ s <> Decode.READY.
Proof.
  unfold known_signatures. cbn [In].
  intros [<-|[<-|[<-|[<-|[<-|[<-|[<-|[<-|[]]]]]]]]];
    (eexists; split; [reflexivity | discriminate]).
Qed.

Lemma signature_unknown (b : byte) :
  ~ In b known_signatures -> Decode.signature (JS.fromCharCode b) = None.
Proof.
  intros H. destruct b; try reflexivity; exfalso; apply H; cbn; tauto.
Qed.

Lemma step_READY_known (any : Z -> option Z -> M Decode.AnyResult)
    (bits : list byte) (v : Decode.Vars) (log : Messages) (s : Decode.State) :
  Decode.state v = Decode.READY ->
  Decode.signature (Decode.type_char (JS.get bits (Decode.offset v))) = Some s ->
  Decode.step any bits v log
  = Return {| Decode.state := s; Decode.offset := Decode.offset v + 1;
              Decode.parts := Decode.parts v |} log.
Proof.
  intros Hs Hsig. unfold Decode.step. rewrite Hs, Hsig. reflexivity.
Qed.

Lemma step_READY_unknown (any : Z -> option Z -> M Decode.AnyResult)
    (bits : list byte) (v : Decode.Vars) (log : Messages) :
  Decode.state v = Decode.READY ->
  Decode.signature (Decode.type_char (JS.get bits (Decode.offset v))) = None ->
  Decode.step any bits v log
  = Return {| Decode.state := Decode.READY; Decode.offset := Decode.offset v + 1;
              Decode.parts := Decode.parts v |}
      (log ++ [("W", Decode.unknown_type_text (JS.get bits (Decode.offset v))
                       (Decode.offset v))]).
Proof.
  intros Hs Hsig. unfold Decode.step. rewrite Hs, Hsig. reflexivity.
Qed.

(** Runs [tac] on the recursive call, the buffer, the variables and the log
    of the iteration at the head of the goal. *)
Ltac on_step tac :=
  match goal with
  | |- bind (Decode.step ?any ?bits ?v) _ ?log = _ => tac any bits v log
  end.

Lemma loop_skips_unknown (fuel : nat) (bits : list byte)
    (maxParts : option Z) (v : Decode.Vars) (log : Messages) (b : byte) :
  Decode.state v = Decode.READY ->
  JS.get bits (Decode.offset v) = Some b ->
  ~ In b known_signatures ->
  Decode.lt_maxParts (JS.length (Decode.parts v)) maxParts = true ->
  Decode.loop (S fuel) bits maxParts v log
  = Decode.loop fuel bits maxParts
      {| Decode.state := Decode.READY; Decode.offset := Decode.offset v + 1;
         Decode.parts := Decode.parts v |}
      (log ++ [("W", Decode.unknown_type_text (Some b) (Decode.offset v))]).
Proof.
  intros Hstate Hbyte Hunknown Hcount. rewrite loop_iterate.
  - rewrite (bind_of_Return _ _ _ _ _
               (step_READY_unknown _ bits v log Hstate
                  ltac:(rewrite Hbyte; now apply signature_unknown))).
    now rewrite Hbyte.
  - unfold Decode.guard. rewrite Hcount, andb_true_r.
    apply Z.ltb_lt. now apply get_in_range in Hbyte.
Qed.

(** A byte that is no signature followed by an [i] entry. *)
Lemma unknown_then_integer (fuel : nat) (b b0 b1 b2 b3 : byte) (log : Messages) :
  ~ In b known_signatures ->
  Decode.Any (4 + fuel) [b; "i"%byte; b0; b1; b2; b3] 0 None log
  = Return {| Decode.res_parts :=
                [IntegerMP (int32_of_unsigned (le_sum [b0; b1; b2; b3]))];
              Decode.bytesRead := 6 |}
      (log ++ [("W", Decode.unknown_type_text (Some b) 0)]).
Proof.
  intros Hb. unfold Decode.Any.
  set (bits := [b; "i"%byte; b0; b1; b2; b3]).
  rewrite (bind_of_Return _ _ _ (log ++ [("W", Decode.unknown_type_text (Some b) 0)])
             {| Decode.state := Decode.READY; Decode.offset := 6;
                Decode.parts :=
                  [IntegerMP (int32_of_unsigned (le_sum [b0; b1; b2; b3]))] |});
    [reflexivity|].
  change (4 + fuel)%nat with (S (S (S (S fuel)))).
  rewrite loop_iterate by reflexivity.
  on_step ltac:(fun a bs w l =>
    rewrite (bind_of_Return _ _ _ _ _
               (step_READY_unknown a bs w l eq_refl (signature_unknown b Hb)))).
  cbn [Decode.offset Decode.parts].
  rewrite loop_iterate by reflexivity.
  on_step ltac:(fun a bs w l =>
    rewrite (bind_of_Return _ _ _ _ _
               (step_READY_known a bs w l Decode.INTEGER_MP eq_refl eq_refl))).
  cbn [Decode.offset Decode.parts].
  rewrite loop_iterate by reflexivity.
  unfold bind at 1.
  cbn [Decode.step Decode.state Decode.offset Decode.parts new_IntegerMP ret bind].
  rewrite loop_exit by reflexivity.
  rewrite (Int32_in_range bits (0 + 1 + 1)) by (cbn; lia).
  reflexivity.
Qed.

(** C4. At a position of the buffer whose byte is none of the eight type
    signatures, the decoder logs a warning, consumes that one byte and goes
    on decoding from the next byte in state [READY], with the parts read so
    far unchanged: nothing is thrown. In particular a buffer made of such a
    byte and an [i] entry decodes to one [IntegerMP], with one warning
    logged. *)
Theorem unknown_signature_skipped :
  (forall (fuel : nat) (bits : list byte) (maxParts : option Z) (v : Decode.Vars)
          (log : Messages) (b : byte),
      Decode.state v = Decode.READY ->
      JS.get bits (Decode.offset v) = Some b ->
      ~ In b known_signatures ->
      Decode.lt_maxParts (JS.length (Decode.parts v)) maxParts = true ->
      Decode.loop (S fuel) bits maxParts v log
      = Decode.loop fuel bits maxParts
          {| Decode.state := Decode.READY; Decode.offset := Decode.offset v + 1;
             Decode.parts := Decode.parts v |}
          (log ++ [("W", Decode.unknown_type_text (Some b) (Decode.offset v))])) /\
  (forall (fuel : nat) (b b0 b1 b2 b3 : byte) (log : Messages),
      ~ In b known_signatures ->
      Decode.Any (4 + fuel) [b; "i"%byte; b0; b1; b2; b3] 0 None log
      = Return {| Decode.res_parts :=
                    [IntegerMP (int32_of_unsigned (le_sum [b0; b1; b2; b3]))];
                  Decode.bytesRead := 6 |}
          (log ++ [("W", Decode.unknown_type_text (Some b) 0)])).
Proof.
  split; [exact loop_skips_unknown | exact unknown_then_integer].
Qed.

Lemma unknown_signature_skipped_witness :
  Decode.Any 4 (bytes_of [0; 105; 1; 0; 0; 0]) 0 None []
  = Return {| Decode.res_parts := [IntegerMP 1]; Decode.bytesRead := 6 |}
      [("W", "Decode.Any (READY): byte 0 (" ++ String.String (ascii_of_nat 0) ""
             ++ ") at offset 0 is not a known type signature")%string].
Proof.
  apply (proj2 unknown_signature_skipped 0%nat x00 x01 x00 x00 x00 []).
  cbn. intuition discriminate.
Defined.

(** C10. When the decoder is at the final byte of the buffer and that byte
    is a type signature, it consumes the byte and returns without appending
    a value for it: the condition of the loop is tested again before the
    payload is read, so a payload (and with it the zero that a read past the
    end defaults to) is read only at an offset inside the buffer. *)
Theorem final_signature_appends_nothing (fuel : nat) (bits : list byte)
    (maxParts : option Z) (v : Decode.Vars) (log : Messages) (b : byte)
    (Hstate : Decode.state v = Decode.READY)
    (Hfinal : Decode.offset v = JS.length bits - 1)
    (Hbyte : JS.get bits (Decode.offset v) = Some b)
    (Hknown : In b known_signatures) :
  (exists v',
      Decode.loop (S (S fuel)) bits maxParts v log = Return v' log /\
      Decode.parts v' = Decode.parts v /\
      (Decode.guard bits maxParts v = true ->
       Decode.state v' <> Decode.READY /\ Decode.offset v' = JS.length bits)) /\
  (forall w : Decode.Vars,
      JS.length bits <= Decode.offset w ->
      Decode.loop (S fuel) bits maxParts w log = Return w log).
Proof.
  split.
  - destruct (Decode.guard bits maxParts v) eqn:Hguard.
    + destruct (signature_known b Hknown) as (s & Hsig & Hs).
      rewrite loop_iterate by assumption.
      rewrite (bind_of_Return _ _ _ _ _
                 (step_READY_known _ bits v log s Hstate
                    ltac:(now rewrite Hbyte))).
      eexists. split; [|split].
      * apply loop_exit. apply guard_false. left. cbn. lia.
      * reflexivity.
      * intros _. split; [exact Hs | cbn; lia].
    + exists v. split; [now apply loop_exit|]. split; [reflexivity | discriminate].
  - intros w Hw. apply loop_exit. apply guard_false. now left.
Qed.

Lemma final_signature_appends_nothing_witness :
  Decode.Any 2 (bytes_of [105]) 0 None []
  = Return {| Decode.res_parts := []; Decode.bytesRead := 1 |} [].
Proof.
  destruct (final_signature_appends_nothing 0 (bytes_of [105]) None
              {| Decode.state := Decode.READY; Decode.offset := 0;
                 Decode.parts := [] |} [] "i"%byte
              eq_refl eq_refl eq_refl (or_introl eq_refl))
    as ((v' & Hrun & Hparts & Hend) & _).
  destruct (Hend eq_refl) as (_ & Hoffset).
  unfold Decode.Any, bind. rewrite Hrun, Hparts, Hoffset. reflexivity.
Defined.

(** ** The [EXPRESSION] case *)

Lemma step_EXPRESSION (any : Z -> option Z -> M Decode.AnyResult)
    (bits : list byte) (v : Decode.Vars) (log : Messages) :
  Decode.state v = Decode.EXPRESSION ->
  Decode.step any bits v log
  = bind (any (Decode.offset v + 4) (Some (Decode.Int32 bits (Decode.offset v) + 1)))
      (fun exprDec =>
         bind (new_Expression (JS.get (Decode.res_parts exprDec) 0)
                 (JS.slice_from (Decode.res_parts exprDec) 1))
           (fun x =>
              ret {| Decode.state := Decode.READY;
                     Decode.offset := Decode.offset v + 4 + Decode.bytesRead exprDec;
                     Decode.parts := Decode.parts v ++ [x] |})) log.
Proof.
  intros Hs. unfold Decode.step. rewrite Hs. reflexivity.
Qed.

Lemma step_SYMBOL (any : Z -> option Z -> M Decode.AnyResult)
    (bits : list byte) (v : Decode.Vars) (log : Messages) :
  Decode.state v = Decode.SYMBOL ->
  Decode.step any bits v log
  = Return {| Decode.state := Decode.READY;
              Decode.offset := Decode.offset v + (Decode.Int32 bits (Decode.offset v) + 4);
              Decode.parts :=
                Decode.parts v
                ++ [Symbol (Decode.String bits (Decode.offset v + 4)
                              (Decode.Int32 bits (Decode.offset v)))] |} log.
Proof. intros Hs. unfold Decode.step. rewrite Hs. reflexivity. Qed.

Lemma String_of_run (bits : list byte) (offset length : Z) :
  0 <= offset -> 0 <= length ->
  Decode.String bits offset length = JS.str (map JS.fromCharCode (run bits offset length)).
Proof.
  intros Ho Hl. unfold Decode.String.
  rewrite U8ArrayToString_map, slice_nonneg by lia.
  unfold run. do 4 f_equal. lia.
Qed.

Lemma loop_reads_expression (fuel : nat) (bits : list byte) (maxParts : option Z)
    (v : Decode.Vars) (log log' : Messages)
    (head : Value) (rest : list Value) (consumed : Z) :
  Decode.state v = Decode.READY ->
  JS.get bits (Decode.offset v) = Some "f"%byte ->
  Decode.lt_maxParts (JS.length (Decode.parts v)) maxParts = true ->
  Decode.Any fuel bits (Decode.offset v + 1 + 4)
    (Some (Decode.Int32 bits (Decode.offset v + 1) + 1)) log
  = Return {| Decode.res_parts := head :: rest; Decode.bytesRead := consumed |} log' ->
  instanceof_Symbol (Some head) = true ->
  Decode.loop (S (S fuel)) bits maxParts v log
  = Decode.loop fuel bits maxParts
      {| Decode.state := Decode.READY;
         Decode.offset := Decode.offset v + 1 + 4 + consumed;
         Decode.parts := Decode.parts v ++ [Expression head rest] |} log'.
Proof.
  intros Hstate Hbyte Hcount Hcall Hhead.
  assert (Decode.offset v + 1 < JS.length bits) as Hpayload.
  { pose proof (Any_nonempty_in_range _ _ _ _ _ _ _ Hcall ltac:(discriminate)). lia. }
  assert (Decode.guard bits maxParts v = true) as Hguard.
  { unfold Decode.guard. rewrite Hcount, andb_true_r. apply Z.ltb_lt. lia. }
  rewrite loop_iterate by assumption.
  rewrite (bind_of_Return _ _ _ _ _
             (step_READY_known _ bits v log Decode.EXPRESSION Hstate
                ltac:(now rewrite Hbyte))).
  rewrite loop_iterate
    by (unfold Decode.guard; cbn [Decode.offset Decode.parts];
        rewrite Hcount, andb_true_r; now apply Z.ltb_lt).
  on_step ltac:(fun a bs w l =>
    rewrite (bind_eq _ _ _ _ (step_EXPRESSION a bs w l eq_refl))).
  cbn [Decode.offset Decode.parts].
  rewrite bind_assoc, (bind_of_Return _ _ _ _ _ Hcall).
  cbn [Decode.res_parts Decode.bytesRead].
  rewrite slice_from_skipn by lia.
  change (JS.get (head :: rest) 0) with (Some head).
  change (skipn (Z.to_nat 1) (head :: rest)) with rest.
  destruct head; try discriminate Hhead. reflexivity.
Qed.

(** A symbol entry read by a call for one value: the signature [s], four
    bytes whose little-endian value is the length of the name, the name. *)
Lemma symbol_entry (fuel : nat) (prefix : list byte) (l0 l1 l2 l3 : byte)
    (name : list byte) (log : Messages) :
  List.length prefix = 5%nat ->
  int32_of_unsigned (le_sum [l0; l1; l2; l3]) = JS.length name ->
  Decode.Any (3 + fuel) (prefix ++ ["s"%byte; l0; l1; l2; l3] ++ name) 5 (Some 1) log
  = Return {| Decode.res_parts := [Symbol (JS.str (map JS.fromCharCode name))];
              Decode.bytesRead := 5 + JS.length name |} log.
Proof.
  intros Hprefix Hlen. unfold Decode.Any.
  destruct prefix as [|p0 [|p1 [|p2 [|p3 [|p4 [|]]]]]]; try discriminate Hprefix.
  cbn [app].
  set (bits := p0 :: p1 :: p2 :: p3 :: p4 :: "s"%byte :: l0 :: l1 :: l2 :: l3 :: name).
  pose proof (length_nonneg name) as Hname.
  assert (JS.length bits = 10 + JS.length name) as Hbits.
  { unfold JS.length, bits. cbn [List.length]. lia. }
  rewrite (bind_of_Return _ _ _ log
             {| Decode.state := Decode.READY; Decode.offset := 10 + JS.length name;
                Decode.parts := [Symbol (JS.str (map JS.fromCharCode name))] |});
    [unfold ret; do 2 f_equal; cbn [Decode.offset]; lia|].
  change (3 + fuel)%nat with (S (S (S fuel))).
  rewrite loop_iterate by (apply guard_true; cbn [Decode.offset Decode.parts];
                           split; [lia | now intros ? [= <-]]).
  on_step ltac:(fun a bs w l =>
    rewrite (bind_of_Return _ _ _ _ _
               (step_READY_known a bs w l Decode.SYMBOL eq_refl eq_refl))).
  cbn [Decode.offset Decode.parts].
  rewrite loop_iterate by (apply guard_true; cbn [Decode.offset Decode.parts];
                           split; [lia | now intros ? [= <-]]).
  on_step ltac:(fun a bs w l =>
    rewrite (bind_of_Return _ _ _ _ _ (step_SYMBOL a bs w l eq_refl))).
  cbn [Decode.offset Decode.parts app].
  assert (Decode.Int32 bits (5 + 1) = JS.length name) as ->.
  { rewrite Int32_in_range by lia. exact Hlen. }
  rewrite String_of_run by lia.
  replace (run bits (5 + 1 + 4) (JS.length name)) with name
    by (unfold run, bits, JS.length; cbn [Z.to_nat Pos.to_nat Pos.iter_op Nat.add skipn];
        rewrite Nat2Z.id; now rewrite firstn_all).
  rewrite loop_exit.
  - do 2 f_equal. lia.
  - apply guard_false. left. cbn [Decode.offset]. lia.
Qed.

(** The signature [f] with a part count of 0, then a symbol entry. *)
Lemma expression_of_symbol (fuel : nat) (l0 l1 l2 l3 : byte) (name : list byte)
    (log : Messages) :
  int32_of_unsigned (le_sum [l0; l1; l2; l3]) = JS.length name ->
  Decode.Any (6 + fuel)
    (["f"%byte; x00; x00; x00; x00] ++ ["s"%byte; l0; l1; l2; l3] ++ name) 0 None log
  = Return {| Decode.res_parts :=
                [Expression (Symbol (JS.str (map JS.fromCharCode name))) []];
              Decode.bytesRead := 10 + JS.length name |} log.
Proof.
  intros Hlen. unfold Decode.Any at 1.
  set (bits := ["f"%byte; x00; x00; x00; x00] ++ ["s"%byte; l0; l1; l2; l3] ++ name).
  pose proof (length_nonneg name) as Hname.
  assert (JS.length bits = 10 + JS.length name) as Hbits.
  { unfold JS.length, bits. cbn [List.length app]. lia. }
  rewrite (bind_of_Return _ _ _ log
             {| Decode.state := Decode.READY; Decode.offset := 10 + JS.length name;
                Decode.parts :=
                  [Expression (Symbol (JS.str (map JS.fromCharCode name))) []] |});
    [unfold ret; do 2 f_equal; cbn [Decode.offset]; lia|].
  change (6 + fuel)%nat with (S (S (S (3 + fuel)))).
  rewrite (loop_reads_expression (S (3 + fuel)) bits None _ log log
             (Symbol (JS.str (map JS.fromCharCode name))) [] (5 + JS.length name)).
  - cbn [Decode.offset Decode.parts app].
    replace (0 + 1 + 4 + (5 + JS.length name)) with (10 + JS.length name) by lia.
    apply loop_exit. apply guard_false. left. cbn [Decode.offset]. lia.
  - reflexivity.
  - reflexivity.
  - reflexivity.
  - cbn [Decode.offset].
    assert (Decode.Int32 bits (0 + 1) = 0) as ->.
    { rewrite Int32_in_range by lia. reflexivity. }
    apply (symbol_entry (S fuel) ["f"%byte; x00; x00; x00; x00]); [reflexivity|].
    exact Hlen.
  - reflexivity.
Qed.

(** C2. Where the decoder reads the signature [f], it takes the
    little-endian 32-bit integer after the signature as the part count and
    calls itself at the offset just past that integer for part count + 1
    values; with the values the call returns, the first of them a symbol, it
    builds the expression whose head is the first value and whose parts are
    the remaining values in order, and continues at the offset advanced by
    the bytes the call consumed. In
    particular the signature [f] with a part count of 0 followed by one
    symbol entry decodes to the expression headed by that symbol, without
    parts. *)
Theorem expression_entry :
  (forall (fuel : nat) (bits : list byte) (maxParts : option Z) (v : Decode.Vars)
          (log log' : Messages) (head : Value) (rest : list Value) (consumed : Z),
      Decode.state v = Decode.READY ->
      JS.get bits (Decode.offset v) = Some "f"%byte ->
      Decode.lt_maxParts (JS.length (Decode.parts v)) maxParts = true ->
      Decode.Any fuel bits (Decode.offset v + 1 + 4)
        (Some (Decode.Int32 bits (Decode.offset v + 1) + 1)) log
      = Return {| Decode.res_parts := head :: rest;
                  Decode.bytesRead := consumed |} log' ->
      instanceof_Symbol (Some head) = true ->
      Decode.loop (S (S fuel)) bits maxParts v log
      = Decode.loop fuel bits maxParts
          {| Decode.state := Decode.READY;
             Decode.offset := Decode.offset v + 1 + 4 + consumed;
             Decode.parts := Decode.parts v ++ [Expression head rest] |} log') /\
  (forall (fuel : nat) (l0 l1 l2 l3 : byte) (name : list byte) (log : Messages),
      int32_of_unsigned (le_sum [l0; l1; l2; l3]) = JS.length name ->
      Decode.Any (6 + fuel)
        (["f"%byte; x00; x00; x00; x00] ++ ["s"%byte; l0; l1; l2; l3] ++ name)
        0 None log
      = Return {| Decode.res_parts :=
                    [Expression (Symbol (JS.str (map JS.fromCharCode name))) []];
                  Decode.bytesRead := 10 + JS.length name |} log).
Proof.
  split; [exact loop_reads_expression | exact expression_of_symbol].
Qed.

Lemma expression_entry_witness :
  Decode.Any 6 (bytes_of [102; 0; 0; 0; 0; 115; 2; 0; 0; 0; 72; 105]) 0 None []
  = Return {| Decode.res_parts := [Expression (Symbol "Hi") []];
              Decode.bytesRead := 12 |} [].
Proof.
  apply (proj2 expression_entry 0%nat x02 x00 x00 x00 (bytes_of [72; 105]) []).
  reflexivity.
Defined.

(** ** The matrix decoder neither throws nor logs *)

Lemma symbol_headed_Expression (h : Value) (ps : list Value) :
  symbol_headed (Expression h ps)
  = instanceof_Symbol (Some h) && forallb symbol_headed ps.
Proof.
  reflexivity.
Qed.

Lemma symbol_headed_List_of (items : list Value) :
  symbol_headed (List_of items) = forallb symbol_headed items.
Proof. unfold List_of. now rewrite symbol_headed_Expression. Qed.

Lemma forallb_snoc {A : Type} (f : A -> bool) (l : list A) (a : A) :
  forallb f (l ++ [a]) = forallb f l && f a.
Proof. rewrite forallb_app. cbn. now rewrite andb_true_r. Qed.

Lemma finish_list_returns (originalOffset : Z) (s : list Value * Z) (log : Messages) :
  Decode.finish_list originalOffset s log
  = Return {| Decode.expr := List_of (fst s);
              Decode.pm_bytesRead := snd s - originalOffset |} log.
Proof. destruct s. reflexivity. Qed.

Lemma ParseMatrixAtLevel_nat_pure (bits : list byte) (sizes : list Z) (level : nat) :
  forall (offset : Z) (log : Messages),
  exists r, Decode.ParseMatrixAtLevel_nat bits sizes level offset log = Return r log
            /\ symbol_headed (Decode.expr r) = true.
Proof.
  induction level as [|below IH]; intros offset log.
  - destruct (for_loop_invariant
                (fun s : list Value * Z => forallb symbol_headed (fst s) = true)
                (Decode.read_float bits)
                (trip_count (JS.get sizes (JS.length sizes - 1))))
      with (s := (@nil Value, offset)) (log := log) as (s & Hloop & Hs);
      [| reflexivity |].
    + intros [l o] lg Hl. eexists. split; [reflexivity|].
      cbn [fst] in *. now rewrite forallb_snoc, Hl.
    + eexists. split.
      * cbn [Decode.ParseMatrixAtLevel_nat].
        rewrite (bind_of_Return _ _ _ _ _ Hloop). apply finish_list_returns.
      * cbn [Decode.expr]. now rewrite symbol_headed_List_of.
  - destruct (for_loop_invariant
                (fun s : list Value * Z => forallb symbol_headed (fst s) = true)
                (Decode.read_sublist (Decode.ParseMatrixAtLevel_nat bits sizes below))
                (trip_count (JS.get sizes (JS.length sizes - Z.of_nat (S below) - 1))))
      with (s := (@nil Value, offset)) (log := log) as (s & Hloop & Hs);
      [| reflexivity |].
    + intros [l o] lg Hl. destruct (IH o lg) as (r & Hr & Hwf).
      eexists. split.
      * unfold Decode.read_sublist. rewrite (bind_of_Return _ _ _ _ _ Hr).
        reflexivity.
      * cbn [fst] in *. now rewrite forallb_snoc, Hl, Hwf.
    + eexists. split.
      * cbn [Decode.ParseMatrixAtLevel_nat].
        rewrite (bind_of_Return _ _ _ _ _ Hloop). apply finish_list_returns.
      * cbn [Decode.expr]. now rewrite symbol_headed_List_of.
Qed.

(** Below level 0 the bound of the loop is [undefined]. *)
Lemma negative_level_bound (sizes : list Z) (level : Z) :
  level < 0 -> trip_count (JS.get sizes (JS.length sizes - level - 1)) = O.
Proof.
  intros H. rewrite get_out_of_range; [reflexivity|]. right. lia.
Qed.

Lemma ParseMatrixAtLevel_pure (bits : list byte) (offset : Z) (sizes : list Z)
    (level : Z) (log : Messages) :
  exists r, Decode.ParseMatrixAtLevel bits offset sizes level log = Return r log
            /\ symbol_headed (Decode.expr r) = true.
Proof.
  unfold Decode.ParseMatrixAtLevel. destruct (Z.ltb_spec level 0) as [Hneg|Hpos].
  - rewrite negative_level_bound by assumption. eexists. split; reflexivity.
  - apply ParseMatrixAtLevel_nat_pure.
Qed.

Lemma read_sizes_pure (bits : list byte) (n : nat) (s : list Z * Z) (log : Messages) :
  exists s', for_loop n (Decode.read_size bits) s log = Return s' log.
Proof.
  destruct (for_loop_invariant (fun _ => True) (Decode.read_size bits) n)
    with (s := s) (log := log) as (s' & H & _); [| exact I | eauto].
  intros [l o] lg _. eexists. split; [reflexivity | exact I].
Qed.

(** ** What one iteration does to the parts *)

(** An iteration either leaves the parts as they are (the [READY] case) or
    appends one value, whose expressions are headed by symbols when those of
    the values returned by the recursive call are. *)
Lemma step_appends (any : Z -> option Z -> M Decode.AnyResult) (bits : list byte)
    (v v' : Decode.Vars) (log log' : Messages) :
  (forall o m l r l', any o m l = Return r l' ->
                      forallb symbol_headed (Decode.res_parts r) = true) ->
  Decode.step any bits v log = Return v' log' ->
  Decode.parts v' = Decode.parts v \/
  exists x, Decode.parts v' = Decode.parts v ++ [x] /\ symbol_headed x = true.
Proof.
  intros Hany. unfold Decode.step, Decode.string_case.
  destruct (Decode.state v).
  - (* READY *)
    intros H. apply bind_Return in H. destruct H as (s & l1 & _ & H).
    injection H as <- _. now left.
  - (* INTEGER_MP *)
    intros [= <- _]. right. eexists. split; reflexivity.
  - (* INTEGER_AP *)
    rewrite (bind_of_Return _ _ _ _ _ (new_IntegerAP_returns _ _)).
    intros [= <- _]. right. eexists. split; reflexivity.
  - (* REAL_MP *)
    intros [= <- _]. right. eexists. split; reflexivity.
  - (* REAL_AP *)
    rewrite (bind_of_Return _ _ _ _ _ (new_RealAP_returns _ _)).
    intros [= <- _]. right. eexists. split; reflexivity.
  - (* SYMBOL *)
    intros [= <- _]. right. eexists. split; reflexivity.
  - (* STRING *)
    intros [= <- _]. right. eexists. split; reflexivity.
  - (* EXPRESSION *)
    intros H. apply bind_Return in H. destruct H as (r & l1 & Hr & H).
    apply bind_Return in H. destruct H as (x & l2 & Hx & H).
    injection H as <- _. right. exists x. split; [reflexivity|].
    apply new_Expression_Return in Hx. destruct Hx as (name & Hhead & -> & _).
    rewrite symbol_headed_Expression. cbn [instanceof_Symbol andb].
    apply Hany in Hr. revert Hr. generalize (Decode.res_parts r). intros ps Hps.
    rewrite slice_from_skipn by lia.
    rewrite <- (firstn_skipn (Z.to_nat 1) ps), forallb_app in Hps.
    now apply andb_true_iff in Hps.
  - (* REAL_MATRIX *)
    intros H. apply bind_Return in H. destruct H as ([sizes o] & l1 & Hsz & H).
    destruct (read_sizes_pure bits (trip_count (Some (Decode.Int32 bits (Decode.offset v))))
                ([], Decode.offset v + 4) log) as (s' & Hs').
    rewrite Hs' in Hsz. injection Hsz as -> <-.
    destruct (ParseMatrixAtLevel_pure bits o sizes
                (Decode.Int32 bits (Decode.offset v) - 1) log) as (r & Hr & Hwf).
    rewrite (bind_of_Return _ _ _ _ _ Hr) in H.
    injection H as <- _. right. eexists. split; [reflexivity | exact Hwf].
Qed.

(** ** Invariants of the loop *)

Lemma Any_Return (fuel : nat) (bits : list byte) (offset : Z) (maxParts : option Z)
    (log log' : Messages) (r : Decode.AnyResult) :
  Decode.Any fuel bits offset maxParts log = Return r log' ->
  exists v, Decode.loop fuel bits maxParts
              {| Decode.state := Decode.READY; Decode.offset := offset;
                 Decode.parts := [] |} log = Return v log'
            /\ Decode.res_parts r = Decode.parts v
            /\ Decode.bytesRead r = Decode.offset v - offset.
Proof.
  unfold Decode.Any. intros H. apply bind_Return in H.
  destruct H as (v & l1 & Hloop & H). injection H as <- <-.
  exists v. auto.
Qed.

(** Every expression among the parts is headed by a symbol. *)
Lemma loop_symbol_headed (bits : list byte) (fuel : nat) :
  forall (maxParts : option Z) (v v' : Decode.Vars) (log log' : Messages),
    forallb symbol_headed (Decode.parts v) = true ->
    Decode.loop fuel bits maxParts v log = Return v' log' ->
    forallb symbol_headed (Decode.parts v') = true.
Proof.
  induction fuel as [|fuel IH]; intros maxParts v v' log log' Hv H; [discriminate|].
  rewrite loop_S in H. destruct (Decode.guard bits maxParts v).
  - apply bind_Return in H. destruct H as (v1 & log1 & Hstep & Hrest).
    apply (IH maxParts v1 v' log1 log'); [|assumption].
    apply step_appends in Hstep.
    + destruct Hstep as [->|(x & -> & Hx)]; [assumption|].
      now rewrite forallb_snoc, Hv, Hx.
    + intros o m l r l' Hr. apply Any_Return in Hr.
      destruct Hr as (w & Hw & -> & _).
      apply (fun Hinit => IH m _ w l l' Hinit Hw). reflexivity.
  - injection H as <- <-. assumption.
Qed.

Lemma Any_symbol_headed (fuel : nat) (bits : list byte) (offset : Z)
    (maxParts : option Z) (log log' : Messages) (r : Decode.AnyResult) :
  Decode.Any fuel bits offset maxParts log = Return r log' ->
  forallb symbol_headed (Decode.res_parts r) = true.
Proof.
  intros H. apply Any_Return in H. destruct H as (v & Hv & -> & _).
  apply (fun Hinit => loop_symbol_headed bits fuel maxParts _ v log log' Hinit Hv).
  reflexivity.
Qed.

(** The parts never outnumber [maxParts]. *)
Lemma loop_count (bits : list byte) (m : Z) (fuel : nat) :
  forall (v v' : Decode.Vars) (log log' : Messages),
    JS.length (Decode.parts v) <= m ->
    Decode.loop fuel bits (Some m) v log = Return v' log' ->
    JS.length (Decode.parts v') <= m.
Proof.
  induction fuel as [|fuel IH]; intros v v' log log' Hv H; [discriminate|].
  rewrite loop_S in H. destruct (Decode.guard bits (Some m) v) eqn:Hguard.
  - apply bind_Return in H. destruct H as (v1 & log1 & Hstep & Hrest).
    apply (IH v1 v' log1 log'); [|assumption].
    apply guard_true in Hguard. destruct Hguard as (_ & Hlt).
    specialize (Hlt m eq_refl).
    apply step_appends in Hstep.
    + destruct Hstep as [->|(x & -> & _)]; [assumption|].
      rewrite length_app. unfold JS.length at 2. cbn [List.length]. lia.
    + intros o m' l r l'. apply Any_symbol_headed.
  - injection H as <- <-. assumption.
Qed.

(** C8. [Mma.Expression] throws for a head that is not an instance of
    [Mma.Symbol], and the error aborts [Mma.Decode.Any]; an expression it
    does build has the symbol it was given as head, so every expression in
    a decoded sequence, at any depth, is headed by a symbol. *)
Theorem Expression_head_is_Symbol :
  (forall head parts log,
      instanceof_Symbol head = false ->
      new_Expression head parts log
      = Throw (MmaError "Mma.js ERROR: Expression: head must be an Mma.Symbol")
          (log ++ [("E", "Expression: head must be an Mma.Symbol")])) /\
  (forall head parts log v log',
      new_Expression head parts log = Return v log' ->
      exists name, head = Some (Symbol name) /\ v = Expression (Symbol name) parts) /\
  (forall fuel bits maxParts v log r log',
      Decode.state v = Decode.EXPRESSION ->
      Decode.guard bits maxParts v = true ->
      Decode.Any fuel bits (Decode.offset v + 4)
        (Some (Decode.Int32 bits (Decode.offset v) + 1)) log = Return r log' ->
      instanceof_Symbol (JS.get (Decode.res_parts r) 0) = false ->
      Decode.loop (S fuel) bits maxParts v log
      = Throw (MmaError "Mma.js ERROR: Expression: head must be an Mma.Symbol")
          (log' ++ [("E", "Expression: head must be an Mma.Symbol")])) /\
  (forall fuel bits offset maxParts log r log',
      Decode.Any fuel bits offset maxParts log = Return r log' ->
      forallb symbol_headed (Decode.res_parts r) = true).
Proof.
  assert (forall head parts log,
      instanceof_Symbol head = false ->
      new_Expression head parts log
      = Throw (MmaError "Mma.js ERROR: Expression: head must be an Mma.Symbol")
          (log ++ [("E", "Expression: head must be an Mma.Symbol")])) as Hthrow.
  { intros [h|] parts log Hh; [|reflexivity].
    unfold new_Expression. now rewrite Hh. }
  split; [exact Hthrow|]. split; [|split].
  - intros head parts log v log' H.
    apply new_Expression_Return in H. destruct H as (name & -> & -> & _). eauto.
  - intros fuel bits maxParts v log r log' Hstate Hguard Hcall Hhead.
    rewrite loop_iterate by assumption.
    rewrite (bind_eq _ _ _ _ (step_EXPRESSION _ _ _ _ Hstate)).
    rewrite !bind_assoc, (bind_of_Return _ _ _ _ _ Hcall).
    unfold bind. now rewrite Hthrow.
  - intros fuel bits offset maxParts log r log'. apply Any_symbol_headed.
Qed.

Lemma Expression_head_is_Symbol_witness :
  Decode.Any 5 (bytes_of [102; 0; 0; 0; 0; 105; 7; 0; 0; 0]) 0 None []
  = Throw (MmaError "Mma.js ERROR: Expression: head must be an Mma.Symbol")
      [("E", "Expression: head must be an Mma.Symbol")].
Proof.
  destruct Expression_head_is_Symbol as (_ & _ & Habort & _).
  unfold Decode.Any, bind at 1.
  change (Decode.loop 5 (bytes_of [102; 0; 0; 0; 0; 105; 7; 0; 0; 0]) None
            {| Decode.state := Decode.READY; Decode.offset := 0; Decode.parts := [] |} [])
    with (Decode.loop 4 (bytes_of [102; 0; 0; 0; 0; 105; 7; 0; 0; 0]) None
            {| Decode.state := Decode.EXPRESSION; Decode.offset := 1;
               Decode.parts := [] |} []).
  rewrite (Habort 3%nat (bytes_of [102; 0; 0; 0; 0; 105; 7; 0; 0; 0]) None
             {| Decode.state := Decode.EXPRESSION; Decode.offset := 1;
                Decode.parts := [] |} []
             {| Decode.res_parts := [IntegerMP 7]; Decode.bytesRead := 5 |} []
             eq_refl eq_refl eq_refl eq_refl).
  reflexivity.
Defined.

(** C5. [Mma.Decode.Any] leaves its loop exactly when the offset has
    reached the end of the buffer or the parts have reached [maxParts]: a
    run that returns ends in such a state, the loop returns at once in such
    a state and runs its body in any other. The sequence returned therefore
    holds at most [maxParts] values (and none at all when the number given
    as [maxParts] is not positive). *)
Theorem loop_stops_at_end_or_maxParts (fuel : nat) (bits : list byte) (offset : Z)
    (maxParts : option Z) (log log' : Messages) (r : Decode.AnyResult)
    (Hrun : Decode.Any fuel bits offset maxParts log = Return r log') :
  (JS.length bits <= offset + Decode.bytesRead r \/
   exists m, maxParts = Some m /\ m <= JS.length (Decode.res_parts r)) /\
  (forall m, maxParts = Some m -> 0 <= m -> JS.length (Decode.res_parts r) <= m) /\
  (forall m, maxParts = Some m -> m <= 0 -> Decode.res_parts r = []) /\
  (forall n v lg,
      JS.length bits <= Decode.offset v \/
      (exists m, maxParts = Some m /\ m <= JS.length (Decode.parts v)) ->
      Decode.loop (S n) bits maxParts v lg = Return v lg) /\
  (forall n v lg,
      Decode.offset v < JS.length bits ->
      (forall m, maxParts = Some m -> JS.length (Decode.parts v) < m) ->
      Decode.loop (S n) bits maxParts v lg
      = bind (Decode.step (Decode.Any n bits) bits v) (Decode.loop n bits maxParts) lg).
Proof.
  apply Any_Return in Hrun. destruct Hrun as (v & Hloop & Hparts & Hbytes).
  rewrite Hparts, Hbytes. split; [|split; [|split; [|split]]].
  - apply loop_Return_guard in Hloop. apply guard_false in Hloop.
    replace (offset + (Decode.offset v - offset)) with (Decode.offset v) by lia.
    exact Hloop.
  - intros m -> Hm.
    apply (fun Hinit => loop_count bits m fuel _ v log log' Hinit Hloop).
    exact Hm.
  - intros m -> Hm. destruct fuel as [|fuel]; [discriminate|].
    rewrite loop_exit in Hloop.
    + now injection Hloop as <- _.
    + apply guard_false. right. exists m. split; [reflexivity|]. exact Hm.
  - intros n w lg Hw. apply loop_exit. now apply guard_false.
  - intros n w lg Hoff Hcnt. apply loop_iterate. apply guard_true. auto.
Qed.

Lemma loop_stops_at_end_or_maxParts_witness :
  JS.length [IntegerMP 1] <= 1 /\
  (JS.length (bytes_of [105; 1; 0; 0; 0; 105; 2; 0; 0; 0]) <= 0 + 5 \/
   exists m, Some 1 = Some m /\ m <= JS.length [IntegerMP 1]).
Proof.
  destruct (loop_stops_at_end_or_maxParts 3
              (bytes_of [105; 1; 0; 0; 0; 105; 2; 0; 0; 0]) 0 (Some 1) [] []
              {| Decode.res_parts := [IntegerMP 1]; Decode.bytesRead := 5 |}
              eq_refl) as (Hstop & Hmax & _).
  split; [apply (Hmax 1 eq_refl); lia | exact Hstop].
Defined.

(** ** A length field that is negative *)

(** Two iterations over [negative_length_entry] bring the loop back to
    offset 0 in state [READY], with one more (empty) symbol. *)
Lemma negative_length_cycle (fuel : nat) (parts : list Value) (log : Messages) :
  Decode.loop (S (S fuel)) negative_length_entry None
    {| Decode.state := Decode.READY; Decode.offset := 0; Decode.parts := parts |} log
  = Decode.loop fuel negative_length_entry None
      {| Decode.state := Decode.READY; Decode.offset := 0;
         Decode.parts := parts ++ [Symbol ""] |} log.
Proof. reflexivity. Qed.

Lemma negative_length_loop (fuel : nat) :
  forall (parts : list Value) (log : Messages),
    Decode.loop fuel negative_length_entry None
      {| Decode.state := Decode.READY; Decode.offset := 0; Decode.parts := parts |} log
    = OutOfFuel /\
    Decode.loop (S fuel) negative_length_entry None
      {| Decode.state := Decode.READY; Decode.offset := 0; Decode.parts := parts |} log
    = OutOfFuel.
Proof.
  induction fuel as [|fuel IH]; intros parts log.
  - split; reflexivity.
  - split; [apply IH|]. rewrite negative_length_cycle. apply IH.
Qed.

(** The recursive call on [negative_length_head] reaches, four iterations
    later, the same recursive call. *)
Lemma negative_length_recursion (fuel : nat) (log : Messages) :
  Decode.Any fuel negative_length_head 5 (Some 2) log = OutOfFuel ->
  Decode.Any (4 + fuel) negative_length_head 5 (Some 2) log = OutOfFuel.
Proof.
  intros H. apply bind_OutOfFuel.
  change (Decode.loop (4 + fuel) negative_length_head (Some 2)
            {| Decode.state := Decode.READY; Decode.offset := 5; Decode.parts := [] |} log)
    with (bind (Decode.step (Decode.Any fuel negative_length_head) negative_length_head
                  {| Decode.state := Decode.EXPRESSION; Decode.offset := 1;
                     Decode.parts := [Symbol ""] |})
            (Decode.loop fuel negative_length_head (Some 2)) log).
  on_step ltac:(fun a bs w l =>
    rewrite (bind_eq _ _ _ _ (step_EXPRESSION a bs w l eq_refl))).
  rewrite bind_assoc. apply bind_OutOfFuel. exact H.
Qed.

Lemma negative_length_recursion_diverges (fuel : nat) (log : Messages) :
  Decode.Any fuel negative_length_head 5 (Some 2) log = OutOfFuel.
Proof.
  induction fuel as [fuel IH] using lt_wf_ind.
  destruct fuel as [|[|[|[|fuel]]]]; try reflexivity.
  apply (negative_length_recursion fuel). apply IH. lia.
Qed.

(** C9. [Mma.Decode.Any] does not return on every input. On the five bytes
    of [negative_length_entry] the length -5 makes [bytesRead] -1, the
    offset comes back to 0 after every symbol and, [maxParts] being
    [Infinity], no amount of fuel lets the loop finish. On
    [negative_length_head] the offset comes back to the signature [f], and
    the call for the head and the part calls itself without end, whatever
    the (positive) [maxParts] of the outer call. *)
Theorem negative_length_never_returns :
  (forall fuel log, Decode.Any fuel negative_length_entry 0 None log = OutOfFuel) /\
  (forall fuel parts log,
      Decode.loop (S (S fuel)) negative_length_entry None
        {| Decode.state := Decode.READY; Decode.offset := 0; Decode.parts := parts |} log
      = Decode.loop fuel negative_length_entry None
          {| Decode.state := Decode.READY; Decode.offset := 0;
             Decode.parts := parts ++ [Symbol ""] |} log) /\
  (forall fuel (m : positive) log,
      Decode.Any fuel negative_length_head 0 (Some (Z.pos m)) log = OutOfFuel).
Proof.
  split; [|split].
  - intros fuel log. unfold Decode.Any, bind.
    now rewrite (proj1 (negative_length_loop fuel [] log)).
  - intros fuel parts log. apply negative_length_cycle.
  - intros fuel m log. apply bind_OutOfFuel.
    assert (forall st o, o < 10 ->
              Decode.guard negative_length_head (Some (Z.pos m))
                {| Decode.state := st; Decode.offset := o; Decode.parts := [] |}
              = true) as Hguard.
    { intros st o Ho. apply guard_true. cbn. split; [lia|]. intros ? [= <-]. lia. }
    destruct fuel as [|fuel]; [reflexivity|].
    rewrite loop_iterate by (apply Hguard; lia).
    rewrite (bind_of_Return _ _ _ _ _
               (step_READY_known _ negative_length_head
                  {| Decode.state := Decode.READY; Decode.offset := 0;
                     Decode.parts := [] |} log Decode.EXPRESSION eq_refl eq_refl)).
    destruct fuel as [|fuel]; [reflexivity|].
    rewrite loop_iterate by (apply Hguard; cbn; lia).
    on_step ltac:(fun a bs w l =>
      rewrite (bind_eq _ _ _ _ (step_EXPRESSION a bs w l eq_refl))).
    rewrite bind_assoc. apply bind_OutOfFuel.
    apply negative_length_recursion_diverges.
Qed.

(** ** The matrix decoder *)

(** A loop that appends [f offset] and advances the offset by [stride]. *)
Lemma for_loop_collect {A : Type} (f : Z -> A) (stride : Z)
    (body : list A * Z -> M (list A * Z)) :
  (forall l o lg, body (l, o) lg = Return (l ++ [f o], o + stride) lg) ->
  forall (n : nat) (l : list A) (o : Z) (lg : Messages),
    for_loop n body (l, o) lg
    = Return (l ++ map (fun i => f (o + Z.of_nat i * stride)) (seq 0 n),
              o + Z.of_nat n * stride) lg.
Proof.
  intros Hbody. induction n as [|n IH]; intros l o lg.
  - cbn [for_loop seq map]. rewrite app_nil_r. unfold ret. do 2 f_equal. lia.
  - rewrite for_loop_S, (bind_of_Return _ _ _ _ _ (Hbody l o lg)), IH.
    assert (map (fun i => f (o + Z.of_nat i * stride)) (seq 0 (S n))
            = f o :: map (fun i => f (o + stride + Z.of_nat i * stride)) (seq 0 n))
      as ->.
    { cbn [seq map]. f_equal; [f_equal; lia|].
      rewrite <- seq_shift, map_map. apply map_ext. intros i. f_equal. lia. }
    rewrite <- app_assoc. cbn [app]. do 2 f_equal. lia.
Qed.

Lemma indices_length (n : Z) : 0 <= n -> JS.length (indices n) = n.
Proof.
  intros H. unfold JS.length, indices. rewrite length_map, length_seq. lia.
Qed.

Lemma seq_from (a b : nat) : seq a b = map (fun i => (a + i)%nat) (seq 0 b).
Proof.
  induction a as [|a IH].
  - symmetry. apply map_id.
  - rewrite <- seq_shift, IH, map_map. reflexivity.
Qed.

Lemma indices_add (a b : Z) :
  0 <= a -> 0 <= b -> indices (a + b) = indices a ++ map (fun j => a + j) (indices b).
Proof.
  intros Ha Hb. unfold indices.
  rewrite Z2Nat.inj_add, seq_app, map_app by assumption. f_equal.
  cbn [Nat.add]. rewrite (seq_from (Z.to_nat a)), !map_map.
  apply map_ext. intros i. lia.
Qed.

Lemma get_app_middle {A : Type} (outer inner : list A) (a : A) :
  JS.get (outer ++ a :: inner) (JS.length outer) = Some a.
Proof.
  unfold JS.get, JS.length.
  destruct (Z.ltb_spec (Z.of_nat (List.length outer)) 0); [lia|].
  rewrite Nat2Z.id, nth_error_app2, Nat.sub_diag by lia. reflexivity.
Qed.

Lemma product_nonneg (sizes : list Z) :
  Forall (fun s => 0 <= s) sizes -> 0 <= product sizes.
Proof.
  induction 1 as [|s sizes Hs _ IH]; cbn [product fold_right]; [lia|].
  fold (product sizes). lia.
Qed.

(** [ParseMatrixAtLevel] at level [level] builds the nest of the last
    [level + 1] dimensions. *)
Lemma ParseMatrixAtLevel_nat_nest (bits : list byte) (level : nat) :
  forall (outer inner : list Z) (offset : Z) (log : Messages),
    List.length inner = S level ->
    Forall (fun s => 0 <= s) inner ->
    Decode.ParseMatrixAtLevel_nat bits (outer ++ inner) level offset log
    = Return {| Decode.expr := nest bits inner offset;
                Decode.pm_bytesRead := 8 * product inner |} log.
Proof.
  induction level as [|below IH]; intros outer inner offset log Hlen Hpos.
  - destruct inner as [|size [|]]; try discriminate Hlen.
    apply Forall_inv in Hpos.
    cbn [Decode.ParseMatrixAtLevel_nat].
    replace (JS.length (outer ++ [size]) - 1) with (JS.length outer)
      by (rewrite length_app; unfold JS.length; cbn [List.length]; lia).
    rewrite get_app_middle. cbn [trip_count].
    rewrite (bind_of_Return _ _ _ _ _
               (for_loop_collect (fun o => RealMP (Decode.Float64 bits o)) 8
                  (Decode.read_float bits) (fun l o lg => eq_refl) _ _ _ _)).
    rewrite finish_list_returns. cbn [fst snd app nest product fold_right].
    unfold indices. rewrite map_map. do 2 f_equal. lia.
  - destruct inner as [|size inner]; [discriminate Hlen|].
    injection Hlen as Hlen.
    pose proof (Forall_inv Hpos) as Hsize. apply Forall_inv_tail in Hpos.
    cbn [Decode.ParseMatrixAtLevel_nat].
    replace (JS.length (outer ++ size :: inner) - Z.of_nat (S below) - 1)
      with (JS.length outer)
      by (rewrite length_app; unfold JS.length; cbn [List.length]; lia).
    rewrite get_app_middle. cbn [trip_count].
    assert (forall l o lg,
               Decode.read_sublist
                 (Decode.ParseMatrixAtLevel_nat bits (outer ++ size :: inner) below)
                 (l, o) lg
               = Return (l ++ [nest bits inner o], o + 8 * product inner) lg)
      as Hbody.
    { intros l o lg. unfold Decode.read_sublist.
      replace (outer ++ size :: inner) with ((outer ++ [size]) ++ inner)
        by (now rewrite <- app_assoc).
      rewrite (bind_of_Return _ _ _ _ _ (IH _ _ o lg Hlen Hpos)).
      reflexivity. }
    rewrite (bind_of_Return _ _ _ _ _
               (for_loop_collect (nest bits inner) (8 * product inner) _ Hbody _ _ _ _)).
    rewrite finish_list_returns. cbn [fst snd app nest product fold_right].
    fold (product inner). unfold indices. rewrite map_map.
    do 2 f_equal. cbv beta in Hsize. rewrite Z2Nat.id by exact Hsize. ring.
Qed.

Lemma ParseMatrixAtLevel_nest (bits : list byte) (offset : Z) (sizes : list Z)
    (log : Messages) :
  sizes <> [] ->
  Forall (fun s => 0 <= s) sizes ->
  Decode.ParseMatrixAtLevel bits offset sizes (JS.length sizes - 1) log
  = Return {| Decode.expr := nest bits sizes offset;
              Decode.pm_bytesRead := 8 * product sizes |} log.
Proof.
  intros Hne Hpos. unfold Decode.ParseMatrixAtLevel.
  assert (1 <= JS.length sizes) as Hlen.
  { destruct sizes; [congruence|]. unfold JS.length. cbn [List.length]. lia. }
  destruct (Z.ltb_spec (JS.length sizes - 1) 0); [lia|].
  apply (ParseMatrixAtLevel_nat_nest bits _ [] sizes offset log); [|assumption].
  unfold JS.length in *. lia.
Qed.

(** The nest has the shape given by the sizes. *)
Lemma nest_has_shape (bits : list byte) (sizes : list Z) :
  Forall (fun s => 0 <= s) sizes ->
  forall offset, has_shape sizes (nest bits sizes offset).
Proof.
  induction 1 as [|size inner Hsize _ IH]; intros offset.
  - cbn. eauto.
  - cbn [nest has_shape]. eexists. split; [reflexivity|]. split.
    + unfold JS.length. rewrite length_map. now apply indices_length.
    + apply Forall_map, Forall_forall. intros i _. apply IH.
Qed.

(** Blocks of [width] consecutive indices, one after the other, are all
    the indices. *)
Lemma concat_blocks {A : Type} (h : Z -> A) (width : Z) (n : nat) :
  0 <= width ->
  List.concat (map (fun i => map (fun j => h (Z.of_nat i * width + j)) (indices width))
                 (seq 0 n))
  = map h (indices (Z.of_nat n * width)).
Proof.
  intros Hw. induction n as [|n IH]; [reflexivity|].
  rewrite seq_S, map_app, concat_app, IH. cbn [map List.concat Nat.add].
  rewrite app_nil_r.
  replace (Z.of_nat (S n) * width) with (Z.of_nat n * width + width) by lia.
  rewrite indices_add, map_app, map_map by lia. reflexivity.
Qed.

(** Its leaves are the floats of the payload, in the order of the buffer. *)
Lemma nest_leaves (bits : list byte) (sizes : list Z) :
  Forall (fun s => 0 <= s) sizes ->
  forall offset,
    leaves (nest bits sizes offset)
    = map (fun i => RealMP (Decode.Float64 bits (offset + 8 * i)))
        (indices (product sizes)).
Proof.
  induction 1 as [|size inner Hsize Hinner IH]; intros offset.
  - change (indices (product [])) with [0]. cbn [map nest leaves].
    now rewrite Z.mul_0_r, Z.add_0_r.
  - cbn [nest leaves List_of product fold_right]. fold (product inner).
    pose proof (product_nonneg inner Hinner) as HP.
    rewrite flat_map_concat_map, map_map.
    rewrite (map_ext _ _ (fun i => IH (offset + i * (8 * product inner)))).
    change (indices size) with (map Z.of_nat (seq 0 (Z.to_nat size))).
    rewrite map_map.
    rewrite <- (Z2Nat.id size Hsize) at 2.
    rewrite <- (concat_blocks _ (product inner)) by assumption.
    f_equal. apply map_ext. intros i. apply map_ext. intros j.
    do 2 f_equal. ring.
Qed.

Lemma read_sizes_collect (bits : list byte) (n : nat) (offset : Z) (log : Messages) :
  for_loop n (Decode.read_size bits) ([], offset) log
  = Return (map (fun k => Decode.Int32 bits (offset + 4 * k)) (indices (Z.of_nat n)),
            offset + 4 * Z.of_nat n) log.
Proof.
  rewrite (for_loop_collect (Decode.Int32 bits) 4 (Decode.read_size bits)
             (fun l o lg => eq_refl)).
  cbn [app]. unfold indices. rewrite Nat2Z.id, map_map.
  do 2 f_equal; [|lia]. apply map_ext. intros i. f_equal. lia.
Qed.

Lemma step_REAL_MATRIX (any : Z -> option Z -> M Decode.AnyResult)
    (bits : list byte) (v : Decode.Vars) (log : Messages) (sizes : list Z) :
  Decode.state v = Decode.REAL_MATRIX ->
  1 <= Decode.Int32 bits (Decode.offset v) ->
  sizes = map (fun k => Decode.Int32 bits (Decode.offset v + 4 + 4 * k))
            (indices (Decode.Int32 bits (Decode.offset v))) ->
  Forall (fun s => 0 <= s) sizes ->
  Decode.step any bits v log
  = Return {| Decode.state := Decode.READY;
              Decode.offset := Decode.offset v + 4
                               + 4 * Decode.Int32 bits (Decode.offset v)
                               + 8 * product sizes;
              Decode.parts :=
                Decode.parts v
                ++ [nest bits sizes
                      (Decode.offset v + 4 + 4 * Decode.Int32 bits (Decode.offset v))] |}
      log.
Proof.
  intros Hstate Hn Hsizes Hpos. unfold Decode.step. rewrite Hstate.
  set (n := Decode.Int32 bits (Decode.offset v)) in *.
  cbn [trip_count].
  rewrite (bind_of_Return _ _ _ _ _ (read_sizes_collect bits _ _ log)).
  rewrite Z2Nat.id by lia. rewrite <- Hsizes.
  assert (JS.length sizes = n) as Hlen.
  { rewrite Hsizes. unfold JS.length. rewrite length_map. apply indices_length. lia. }
  rewrite <- Hlen at 2.
  rewrite (bind_of_Return _ _ _ _ _
             (ParseMatrixAtLevel_nest bits _ sizes log
                ltac:(intros ->; unfold JS.length in Hlen; cbn in Hlen; lia) Hpos)).
  cbn [Decode.expr Decode.pm_bytesRead]. reflexivity.
Qed.

(** C3. Where the decoder reads the signature [e] followed by a dimension
    count [n] of at least 1 and [n] sizes, none negative, read as
    little-endian 32-bit integers, it appends one value: a
    nest of [List] expressions [n] deep whose level [k] has [sizes[k]]
    items, whose leaves are the [RealMP] of the consecutive 8-byte floats
    that follow the sizes, in the order of the buffer; it continues past the
    last float. *)
Theorem real_matrix_entry (fuel : nat) (bits : list byte) (maxParts : option Z)
    (v : Decode.Vars) (log : Messages) (n : Z) (sizes : list Z) (floats : Z)
    (Hstate : Decode.state v = Decode.READY)
    (Hbyte : JS.get bits (Decode.offset v) = Some "e"%byte)
    (Hcount : Decode.lt_maxParts (JS.length (Decode.parts v)) maxParts = true)
    (Hn : n = Decode.Int32 bits (Decode.offset v + 1))
    (Hdims : 1 <= n)
    (Hsizes : sizes = map (fun k => Decode.Int32 bits (Decode.offset v + 1 + 4 + 4 * k))
                        (indices n))
    (Hnonneg : Forall (fun s => 0 <= s) sizes)
    (Hfloats : floats = Decode.offset v + 1 + 4 + 4 * n) :
  Decode.loop (S (S fuel)) bits maxParts v log
  = Decode.loop fuel bits maxParts
      {| Decode.state := Decode.READY;
         Decode.offset := floats + 8 * product sizes;
         Decode.parts := Decode.parts v ++ [nest bits sizes floats] |} log /\
  JS.length sizes = n /\
  has_shape sizes (nest bits sizes floats) /\
  leaves (nest bits sizes floats)
  = map (fun i => RealMP (Decode.Float64 bits (floats + 8 * i)))
      (indices (product sizes)) /\
  (floats + 8 * product sizes <= JS.length bits ->
   leaves (nest bits sizes floats)
   = map (fun i => RealMP (JS.float64_of_bits (le_sum (run bits (floats + 8 * i) 8))))
       (indices (product sizes))).
Proof.
  assert (Decode.offset v + 1 < JS.length bits) as Hpayload.
  { destruct (Z.lt_ge_cases (Decode.offset v + 1) (JS.length bits)); [assumption|].
    rewrite Int32_past_end in Hn by lia. lia. }
  assert (Decode.guard bits maxParts v = true) as Hguard.
  { unfold Decode.guard. rewrite Hcount, andb_true_r. apply Z.ltb_lt. lia. }
  split; [|split; [|split; [|split]]].
  - rewrite loop_iterate by assumption.
    rewrite (bind_of_Return _ _ _ _ _
               (step_READY_known _ bits v log Decode.REAL_MATRIX Hstate
                  ltac:(now rewrite Hbyte))).
    rewrite loop_iterate
      by (unfold Decode.guard; cbn [Decode.offset Decode.parts];
          rewrite Hcount, andb_true_r; now apply Z.ltb_lt).
    on_step ltac:(fun a bs w l =>
      rewrite (bind_of_Return _ _ _ _ _
                 (step_REAL_MATRIX a bs w l sizes eq_refl
                    ltac:(cbn [Decode.offset]; lia)
                    ltac:(cbn [Decode.offset]; now rewrite <- Hn)
                    Hnonneg))).
    cbn [Decode.offset Decode.parts]. rewrite <- Hn, <- Hfloats. reflexivity.
  - rewrite Hsizes. unfold JS.length. rewrite length_map. apply indices_length. lia.
  - now apply nest_has_shape.
  - now apply nest_leaves.
  - intros Hin. rewrite nest_leaves by assumption.
    apply map_ext_in. intros i Hi. f_equal.
    unfold indices in Hi. apply in_map_iff in Hi. destruct Hi as (k & <- & Hk).
    apply in_seq in Hk.
    pose proof (product_nonneg sizes Hnonneg) as HP.
    pose proof (get_in_range _ _ _ Hbyte) as Hoff.
    apply Float64_in_range; lia.
Qed.

Lemma real_matrix_entry_witness :
  exists one two three four five six,
    Decode.Any 3 matrix_2_by_3 0 None []
    = Return {| Decode.res_parts :=
                  [List_of [List_of [RealMP one; RealMP two; RealMP three];
                            List_of [RealMP four; RealMP five; RealMP six]]];
                Decode.bytesRead := 61 |} [] /\
    map integer_value [one; two; three; four; five; six]
    = [Some 1; Some 2; Some 3; Some 4; Some 5; Some 6].
Proof.
  destruct (real_matrix_entry 1 matrix_2_by_3 None
              {| Decode.state := Decode.READY; Decode.offset := 0;
                 Decode.parts := [] |} [] 2 [2; 3] 13
              eq_refl eq_refl eq_refl eq_refl ltac:(lia) eq_refl
              ltac:(repeat constructor; lia) eq_refl) as (Hrun & _).
  do 6 eexists. unfold Decode.Any, bind. rewrite Hrun.
  split; reflexivity.
Defined.
(** ** The preprocessor *)

Lemma firstn_exact {A : Type} (pre rest : list A) :
  firstn (List.length pre) (pre ++ rest) = pre.
Proof. induction pre as [|a pre IH]; [apply firstn_O|]. cbn. now rewrite IH. Qed.

Lemma skipn_exact {A : Type} (pre rest : list A) :
  skipn (List.length pre) (pre ++ rest) = rest.
Proof. induction pre as [|a pre IH]; [reflexivity|]. exact IH. Qed.

Lemma firstn_succ_exact {A : Type} (pre rest : list A) (a : A) :
  firstn (S (List.length pre)) (pre ++ a :: rest) = pre ++ [a].
Proof. induction pre as [|b pre IH]; [reflexivity|]. cbn. now rewrite <- IH. Qed.

Lemma skipn_succ_exact {A : Type} (pre rest : list A) (a : A) :
  skipn (S (List.length pre)) (pre ++ a :: rest) = rest.
Proof. induction pre as [|b pre IH]; [reflexivity|]. exact IH. Qed.

Lemma get_split {A : Type} (l : list A) (i : Z) (a : A) :
  JS.get l i = Some a ->
  exists pre rest, l = pre ++ a :: rest /\ List.length pre = Z.to_nat i.
Proof.
  unfold JS.get. destruct (Z.ltb_spec i 0); [discriminate|].
  apply nth_error_split.
Qed.

Lemma get_Some {A : Type} (l : list A) (i : Z) :
  0 <= i < JS.length l -> exists a, JS.get l i = Some a.
Proof.
  intros Hi. unfold JS.get, JS.length in *. destruct (Z.ltb_spec i 0); [lia|].
  destruct (nth_error l (Z.to_nat i)) eqn:E; [eauto|].
  apply nth_error_None in E. lia.
Qed.

(** The test of the first loop holds of the three characters to delete and
    of no other. *)
Lemma is_artifact_codes (u : Z) :
  is_artifact (Some u) = existsb (Z.eqb u) artifact_codes.
Proof.
  unfold is_artifact, equals, artifact_codes. cbn.
  now rewrite orb_false_r, orb_assoc.
Qed.

(** The first loop of [Mma.Decompress], started at index [i], keeps the
    first [i] characters and deletes the artifacts among the others. *)
Lemma strip_loop_chars (fuel : nat) :
  forall (s : JS.text) (i : Z),
    0 <= i <= JS.length s ->
    (List.length s - Z.to_nat i <= fuel)%nat ->
    strip_loop fuel s i
    = firstn (Z.to_nat i) s ++ without_artifacts (skipn (Z.to_nat i) s).
Proof.
  unfold without_artifacts.
  induction fuel as [|fuel IH]; intros s i Hi Hfuel.
  - cbn [strip_loop]. unfold JS.length in *.
    rewrite firstn_all2, skipn_all2 by lia. now rewrite app_nil_r.
  - cbn [strip_loop]. destruct (Z.ltb_spec i (JS.length s)) as [Hin|Hout].
    + destruct (get_Some s i ltac:(lia)) as (c & Hc).
      rewrite Hc. destruct (get_split _ _ _ Hc) as (pre & rest & Hcs & Hpre).
      rewrite is_artifact_codes.
      destruct (existsb (Z.eqb c) artifact_codes) eqn:Hart.
      * replace (i - 1 + 1) with i by lia.
        assert (Util.DeleteCharAt s i = pre ++ rest) as Hdel.
        { rewrite DeleteCharAt_chars by lia. rewrite Hcs, <- Hpre.
          now rewrite firstn_exact, skipn_succ_exact. }
        rewrite IH.
        -- rewrite Hdel, Hcs, <- Hpre, !firstn_exact, !skipn_exact.
           cbn [filter]. now rewrite Hart.
        -- rewrite Hdel. unfold JS.length in *. rewrite Hcs in Hin.
           rewrite List.length_app in *. cbn [List.length] in Hin. lia.
        -- rewrite Hdel. rewrite Hcs in Hfuel.
           rewrite List.length_app in *. cbn [List.length] in Hfuel. lia.
      * rewrite IH by (unfold JS.length in *; lia).
        replace (Z.to_nat (i + 1)) with (S (List.length pre)) by lia.
        rewrite Hcs, <- Hpre.
        rewrite firstn_succ_exact, skipn_succ_exact, firstn_exact, skipn_exact.
        cbn [filter]. rewrite Hart. cbn [negb]. now rewrite <- app_assoc.
    + unfold JS.length in *.
      rewrite firstn_all2, skipn_all2 by lia. now rewrite app_nil_r.
Qed.

Lemma strip_loop_without_artifacts (s : JS.text) :
  strip_loop (List.length s) s 0 = without_artifacts s.
Proof.
  rewrite strip_loop_chars by (pose proof (length_nonneg s); lia).
  reflexivity.
Qed.

(** The characters [trim] removes are the white space of ECMAScript. *)
Lemma is_trimmed_space (u : Z) : JS.is_trimmed u = is_space u.
Proof.
  unfold is_space, white_space_code_points, line_terminator_code_points.
  cbn [app existsb]. unfold JS.is_trimmed.
  repeat match goal with
         | |- context [?a =? ?b] =>
             is_var a; destruct (Z.eqb_spec a b); [subst; reflexivity|]
         end.
  rewrite ?orb_false_r.
  destruct (Z.leb_spec 9 u), (Z.leb_spec u 13), (Z.leb_spec 8192 u),
    (Z.leb_spec u 8202); try reflexivity; lia.
Qed.

Lemma trimStart_space (lead rest : JS.text) :
  forallb is_space lead = true -> JS.trimStart (lead ++ rest) = JS.trimStart rest.
Proof.
  induction lead as [|u lead IH]; [reflexivity|].
  cbn [forallb app JS.trimStart]. intros H. apply andb_true_iff in H.
  destruct H as [Hu Hlead]. rewrite is_trimmed_space, Hu. now apply IH.
Qed.

Lemma trimStart_all_space (l : JS.text) :
  forallb is_space l = true -> JS.trimStart l = [].
Proof.
  intros H. rewrite <- (app_nil_r l). now rewrite trimStart_space.
Qed.

Lemma trimStart_stops (core rest : JS.text) :
  (forall u tail, core = u :: tail -> is_space u = false) ->
  core <> [] ->
  JS.trimStart (core ++ rest) = core ++ rest.
Proof.
  intros Hhead Hne. destruct core as [|u tail]; [now elim Hne|].
  cbn [app JS.trimStart]. now rewrite is_trimmed_space, (Hhead u tail eq_refl).
Qed.

Lemma forallb_rev {A : Type} (f : A -> bool) (l : list A) :
  forallb f (List.rev l) = forallb f l.
Proof.
  induction l as [|a l IH]; [reflexivity|].
  cbn [List.rev forallb]. rewrite forallb_app, IH. cbn [forallb].
  rewrite andb_true_r. apply andb_comm.
Qed.

(** What [trimStart] removes is white space, and what it leaves does not
    begin with white space. *)
Lemma trimStart_split (s : JS.text) :
  exists lead,
    s = lead ++ JS.trimStart s /\ forallb is_space lead = true /\
    (forall u rest, JS.trimStart s = u :: rest -> is_space u = false).
Proof.
  induction s as [|u s (lead & Hs & Hlead & Hhead)].
  - exists []. repeat split. discriminate.
  - cbn [JS.trimStart]. destruct (JS.is_trimmed u) eqn:Hu.
    + exists (u :: lead). cbn [app forallb]. rewrite <- Hs, Hlead.
      rewrite is_trimmed_space in Hu. rewrite Hu. repeat split. exact Hhead.
    + exists []. repeat split. intros v rest [= <- _].
      now rewrite <- is_trimmed_space.
Qed.

(** The result of [trim] is the one text that white space surrounds in the
    string. *)
Lemma trim_surrounded (s : JS.text) :
  exists lead trail, surrounded s lead (JS.trim s) trail.
Proof.
  unfold JS.trim, JS.trimEnd.
  destruct (trimStart_split s) as (lead & Hs & Hlead & Hhead).
  destruct (trimStart_split (List.rev (JS.trimStart s))) as (tail & Hr & Htail & Hlast).
  set (t := JS.trimStart s) in *.
  set (r := JS.trimStart (List.rev t)) in *.
  assert (t = List.rev r ++ List.rev tail) as Ht.
  { rewrite <- rev_app_distr, <- Hr. now rewrite rev_involutive. }
  exists lead, (List.rev tail). unfold surrounded.
  split; [now rewrite <- Ht|]. split; [exact Hlead|].
  split; [now rewrite forallb_rev|]. split.
  - intros u rest Hcore. destruct t as [|v t'].
    + destruct (List.rev r); discriminate.
    + rewrite Hcore in Ht. injection Ht as -> _. exact (Hhead u t' eq_refl).
  - intros front u Hcore. apply (Hlast u (List.rev front)).
    rewrite <- (rev_involutive r), Hcore, rev_app_distr. reflexivity.
Qed.

Lemma surrounded_trim (s lead core trail : JS.text) :
  surrounded s lead core trail -> JS.trim s = core.
Proof.
  intros (-> & Hlead & Htrail & Hhead & Hlast).
  unfold JS.trim, JS.trimEnd. rewrite trimStart_space by exact Hlead.
  destruct core as [|u rest] eqn:Hcore.
  - cbn [app]. rewrite (trimStart_all_space trail Htrail). reflexivity.
  - rewrite <- Hcore in *.
    rewrite trimStart_stops by (assumption || (rewrite Hcore; discriminate)).
    rewrite rev_app_distr, trimStart_space by now rewrite forallb_rev.
    destruct (exists_last (l := core) ltac:(rewrite Hcore; discriminate))
      as (front & v & Hfront).
    rewrite Hfront at 1. rewrite rev_app_distr. cbn [List.rev app].
    cbn [JS.trimStart]. rewrite is_trimmed_space, (Hlast front v Hfront).
    change (v :: List.rev front) with (List.rev [v] ++ List.rev front).
    rewrite <- rev_app_distr, rev_involutive. now rewrite <- Hfront.
Qed.

Lemma eqb_fromCharCode (a b : byte) :
  Ascii.eqb (JS.fromCharCode a) (JS.fromCharCode b) = Byte.eqb a b.
Proof.
  unfold JS.fromCharCode.
  destruct (Byte.eqb a b) eqn:E.
  - apply Byte.byte_dec_bl in E. subst. apply Ascii.eqb_refl.
  - apply Ascii.eqb_neq. intros H.
    apply (f_equal byte_of_ascii) in H. rewrite !byte_of_ascii_of_byte in H.
    now apply Byte.eqb_false in E.
Qed.

Lemma header_has_marker (bits : list byte) :
  String.eqb (Util.U8ArrayToString (JS.slice bits 0 4)) "!boR" = has_marker bits.
Proof.
  rewrite U8ArrayToString_map, slice_firstn by lia. unfold has_marker.
  change (Z.to_nat 4) with 4%nat.
  destruct bits as [|a [|b [|c [|d bits]]]];
    cbn [firstn map JS.str string_of_list_ascii String.eqb];
    change "!"%char with (JS.fromCharCode "!"%byte);
    change "b"%char with (JS.fromCharCode "b"%byte);
    change "o"%char with (JS.fromCharCode "o"%byte);
    change "R"%char with (JS.fromCharCode "R"%byte);
    rewrite ?eqb_fromCharCode;
    repeat match goal with
           | |- context [Byte.eqb ?x ?y] => destruct (Byte.eqb x y)
           end;
    reflexivity.
Qed.

Section Preprocessor.

Variable atob : JS.text -> option string.
Variable inflate : list byte -> option (list byte).

(** [Mma.Decompress] is the steps after its first loop on the text without
    artifacts. *)
Lemma Decompress_steps (compressedString : JS.text) (log : Messages) :
  Decompress atob inflate compressedString log
  = match atob (skipn 2 (JS.trim (without_artifacts compressedString))) with
    | None => Throw (Native "atob") log
    | Some binary =>
        match inflate (map byte_of_ascii (JS.chars binary)) with
        | None => Throw (Native "pako.inflate") log
        | Some bits =>
            Return (skipn 4 bits)
              (if has_marker bits then log
               else log ++ [("W",
                             String.concat ""
                               ["Decompress: unknown header string ";
                                JS.str (map JS.fromCharCode (firstn 4 bits));
                                " (expected !boR)"])])
        end
    end.
Proof.
  unfold Decompress, Util.Base64Decode.
  rewrite strip_loop_without_artifacts.
  rewrite slice_from_skipn by lia. change (Z.to_nat 2) with 2%nat.
  unfold bind at 1.
  destruct (atob _) as [binary|]; [|reflexivity].
  unfold ret at 1. unfold bind at 1.
  destruct (inflate _) as [bits|]; [|reflexivity].
  unfold ret at 1. unfold bind.
  rewrite header_has_marker, slice_from_skipn by lia.
  rewrite U8ArrayToString_map, slice_firstn by lia.
  destruct (has_marker bits); reflexivity.
Qed.

(** C7. [Mma.Decompress] deletes every backslash, newline and double quote
    of its input, consecutive ones included, and removes the white space
    around what is left: for every input text the text without the three
    characters is some [core] surrounded by white space, and whatever text
    that is, [Mma.Decompress] drops its first two characters, decodes the
    rest with [atob] and inflates the bytes; an error of either collaborator
    is thrown on. The buffer returned is the inflated one without its first
    four bytes, whether or not these are the marker [!boR]; the only effect
    of a mismatch is one warning in the log. *)
Theorem Decompress_pipeline (compressedString : JS.text) (log : Messages) :
  (exists lead core trail,
      surrounded (without_artifacts compressedString) lead core trail) /\
  (forall lead core trail,
      surrounded (without_artifacts compressedString) lead core trail ->
      Decompress atob inflate compressedString log
      = match atob (skipn 2 core) with
        | None => Throw (Native "atob") log
        | Some binary =>
            match inflate (map byte_of_ascii (JS.chars binary)) with
            | None => Throw (Native "pako.inflate") log
            | Some bits =>
                Return (skipn 4 bits)
                  (if has_marker bits then log
                   else log ++ [("W",
                                 String.concat ""
                                   ["Decompress: unknown header string ";
                                    JS.str (map JS.fromCharCode (firstn 4 bits));
                                    " (expected !boR)"])])
            end
        end).
Proof.
  split.
  - destruct (trim_surrounded (without_artifacts compressedString)) as (lead & trail & H).
    now exists lead, (JS.trim (without_artifacts compressedString)), trail.
  - intros lead core trail Hcore.
    rewrite Decompress_steps. now rewrite (surrounded_trim _ _ _ _ Hcore).
Qed.

End Preprocessor.

Lemma Decompress_pipeline_witness :
  Decompress atob_plain Some
    [32; 34; 49; 58; 33; 98; 92; 111; 10; 82; 104; 105; 34; 8232; 65279] []
  = Return (bytes_of [104; 105]) [].
Proof.
  rewrite (proj2 (Decompress_pipeline atob_plain Some
                    [32; 34; 49; 58; 33; 98; 92; 111; 10; 82; 104; 105; 34; 8232; 65279] [])
             [32] [49; 58; 33; 98; 111; 82; 104; 105] [8232; 65279]).
  - reflexivity.
  - repeat split.
    + intros u rest [= <- _]. reflexivity.
    + intros front u H. apply (f_equal (@List.rev Z)) in H.
      rewrite rev_app_distr in H. injection H as <- _. reflexivity.
Defined.

(** * Further properties of the module *)

(** ** Utility functions *)

Lemma str_length (l : list ascii) : String.length (JS.str l) = List.length l.
Proof.
  unfold JS.str. induction l as [|c l IH]; [reflexivity|]. cbn. now rewrite IH.
Qed.

(** X1. [Mma.Util.U8ArrayToString] yields the string whose characters are
    the bytes of the array, in order: the conversion by chunks of [0x8000]
    bytes does not show, and the string is as long as the array. *)
Theorem U8ArrayToString_is_text (array : list byte) :
  Util.U8ArrayToString array = text_of array /\
  String.length (Util.U8ArrayToString array) = List.length array /\
  (forall i b, JS.get array i = Some b ->
               JS.get (JS.chars (Util.U8ArrayToString array)) i = Some (JS.fromCharCode b)).
Proof.
  rewrite U8ArrayToString_map. split; [reflexivity|]. split.
  - now rewrite str_length, length_map.
  - intros i b. rewrite chars_str. unfold JS.get.
    destruct (i <? 0); [discriminate|]. intros H.
    now rewrite nth_error_map, H.
Qed.

Lemma U8ArrayToString_is_text_witness :
  JS.get (JS.chars (Util.U8ArrayToString (bytes_of [72; 105]))) 1 = Some "i"%char.
Proof.
  apply (proj2 (proj2 (U8ArrayToString_is_text (bytes_of [72; 105]))) 1 "i"%byte).
  reflexivity.
Defined.

(** X2. [Mma.Util.DeleteCharAt] removes the character at [pos] when [pos]
    is an index of the string, which then is one character shorter. At a
    position past the end, and at -1, it returns the string unchanged; at a
    position below -1 it returns only the last [-pos - 1] characters,
    because [substr] counts a negative start from the end. *)
Theorem DeleteCharAt_positions (s : JS.text) (pos : Z) :
  (0 <= pos < JS.length s ->
   Util.DeleteCharAt s pos = firstn (Z.to_nat pos) s ++ skipn (S (Z.to_nat pos)) s /\
   JS.length (Util.DeleteCharAt s pos) = JS.length s - 1) /\
  (JS.length s <= pos \/ pos = -1 -> Util.DeleteCharAt s pos = s) /\
  (pos < -1 ->
   Util.DeleteCharAt s pos = skipn (Z.to_nat (JS.length s + pos + 1)) s).
Proof.
  pose proof (length_nonneg s) as Hlen.
  split; [|split].
  - intros Hpos. rewrite DeleteCharAt_chars by assumption. split; [reflexivity|].
    unfold JS.length in *. rewrite List.length_app, length_firstn, length_skipn. lia.
  - intros Hpos. unfold Util.DeleteCharAt.
    unfold JS.substr, JS.relative_index. change (0 <? 0) with false. cbv iota.
    destruct (Z.ltb_spec (pos + 1) 0); [lia|].
    rewrite (Z.min_l 0), Z.sub_0_r by lia. cbn [Z.to_nat skipn].
    destruct Hpos as [Hpos| ->].
    + rewrite (Z.max_l pos), (Z.min_r pos), (Z.min_r (pos + 1)) by lia.
      rewrite Z.sub_diag. cbn [Z.to_nat firstn].
      rewrite app_nil_r. apply firstn_all2. unfold JS.length. lia.
    + rewrite (Z.max_r (-1)), (Z.min_l 0), (Z.min_l (-1 + 1)) by lia.
      cbn [Z.to_nat firstn skipn app]. apply firstn_all2. unfold JS.length. lia.
  - intros Hpos. unfold Util.DeleteCharAt.
    unfold JS.substr, JS.relative_index. change (0 <? 0) with false. cbv iota.
    rewrite (Z.min_l 0), Z.sub_0_r, (Z.max_r pos), (Z.min_l 0) by lia.
    cbn [Z.to_nat firstn app].
    destruct (Z.ltb_spec (pos + 1) 0) as [Hlt|Hge]; [|lia].
    rewrite firstn_all2 by (rewrite length_skipn; unfold JS.length in *; lia).
    f_equal. lia.
Qed.

Lemma DeleteCharAt_positions_witness :
  Util.DeleteCharAt (JS.units "a\b") 1 = JS.units "ab" /\
  Util.DeleteCharAt (JS.units "ab") 5 = JS.units "ab" /\
  Util.DeleteCharAt (JS.units "abc") (-2) = JS.units "c".
Proof.
  destruct (DeleteCharAt_positions (JS.units "a\b") 1) as (Hin & _ & _).
  destruct (DeleteCharAt_positions (JS.units "ab") 5) as (_ & Hout & _).
  destruct (DeleteCharAt_positions (JS.units "abc") (-2)) as (_ & _ & Hneg).
  split; [|split].
  - rewrite (proj1 (Hin ltac:(vm_compute; split; [discriminate | reflexivity]))). reflexivity.
  - apply Hout. left. vm_compute. discriminate.
  - rewrite (Hneg ltac:(lia)). reflexivity.
Defined.

(** ** Constructors and string entries *)

(** X3. [Mma.RealAP] never fails on a string: its only test,
    [input[0] === 0], compares a character with a number and is false for
    every string, so that strings with a leading zero, and strings that are
    no number at all, are stored as they are. *)
Theorem RealAP_accepts_every_string (input : string) (log : Messages) :
  new_RealAP input log = Return (RealAP input) log.
Proof. apply new_RealAP_returns. Qed.

Lemma slice_nonneg_reversed {A : Type} (l : list A) (a b : Z) :
  0 <= b -> b <= a -> JS.slice l a b = [].
Proof.
  intros Hb Ha. unfold JS.slice, JS.relative_index.
  destruct (Z.ltb_spec a 0); [lia|]. destruct (Z.ltb_spec b 0); [lia|].
  rewrite Z.max_r by lia. reflexivity.
Qed.

Lemma String_clipped (bits : list byte) (offset length : Z) :
  0 <= offset -> 0 <= length ->
  Decode.String bits offset length = text_of (run bits offset length) /\
  JS.length (run bits offset length)
  = Z.min length (Z.max 0 (JS.length bits - offset)).
Proof.
  intros Ho Hl. split; [now apply String_of_run|].
  unfold run, JS.length. rewrite length_firstn, length_skipn. lia.
Qed.

(** X4. [Mma.Decode.StringEntry] at an offset inside the buffer reports
    [length + 4] bytes read, [length] being the integer at the offset,
    whatever the buffer holds after it. For a length of 0 or more the
    string is made of the bytes after the length field, as many as
    [length] or as are left in the buffer if those are fewer; for a
    negative length that does not reach below index 0 the string is
    empty. *)
Theorem StringEntry_contract (bits : list byte) (offset : Z) (Hoffset : 0 <= offset) :
  let entry := Decode.StringEntry bits offset in
  Decode.length entry = Decode.Int32 bits offset /\
  Decode.se_bytesRead entry = Decode.Int32 bits offset + 4 /\
  (0 <= Decode.length entry ->
   Decode.string entry = text_of (run bits (offset + 4) (Decode.length entry)) /\
   Z.of_nat (String.length (Decode.string entry))
   = Z.min (Decode.length entry) (Z.max 0 (JS.length bits - (offset + 4)))) /\
  (Decode.length entry < 0 -> 0 <= offset + 4 + Decode.length entry ->
   Decode.string entry = "").
Proof.
  cbn zeta. unfold Decode.StringEntry. cbn [Decode.length Decode.se_bytesRead Decode.string].
  split; [reflexivity|]. split; [reflexivity|]. split.
  - intros Hlen.
    destruct (String_clipped bits (offset + 4) (Decode.Int32 bits offset)) as (Htext & Hsize);
      [lia | assumption |].
    rewrite Htext. split; [reflexivity|].
    unfold text_of. rewrite str_length, length_map. exact Hsize.
  - intros Hneg Hfloor. unfold Decode.String.
    rewrite slice_nonneg_reversed by lia. reflexivity.
Qed.

Lemma StringEntry_contract_witness :
  Decode.string (Decode.StringEntry (bytes_of [115; 5; 0; 0; 0; 72; 105]) 1) = "Hi" /\
  Decode.se_bytesRead (Decode.StringEntry (bytes_of [115; 5; 0; 0; 0; 72; 105]) 1) = 9.
Proof.
  destruct (StringEntry_contract (bytes_of [115; 5; 0; 0; 0; 72; 105]) 1 ltac:(lia))
    as (_ & Hread & Htext & _).
  split.
  - rewrite (proj1 (Htext ltac:(vm_compute; discriminate))). reflexivity.
  - rewrite Hread. reflexivity.
Defined.

(** ** The entries of fixed width and the length-prefixed entries *)

Lemma guard_at (bits : list byte) (maxParts : option Z) (st : Decode.State)
    (o : Z) (ps : list Value) :
  o < JS.length bits ->
  Decode.lt_maxParts (JS.length ps) maxParts = true ->
  Decode.guard bits maxParts
    {| Decode.state := st; Decode.offset := o; Decode.parts := ps |} = true.
Proof.
  intros Ho Hc. unfold Decode.guard. cbn [Decode.offset Decode.parts].
  rewrite Hc, andb_true_r. now apply Z.ltb_lt.
Qed.

(** The two iterations at a signature: the [READY] case, then the case of
    the state it selects, when the buffer goes on after the signature. *)
Lemma loop_at_signature (fuel : nat) (bits : list byte) (maxParts : option Z)
    (v : Decode.Vars) (log : Messages) (b : byte) (s : Decode.State) :
  Decode.state v = Decode.READY ->
  JS.get bits (Decode.offset v) = Some b ->
  Decode.signature (JS.fromCharCode b) = Some s ->
  Decode.offset v + 1 < JS.length bits ->
  Decode.lt_maxParts (JS.length (Decode.parts v)) maxParts = true ->
  Decode.loop (S (S fuel)) bits maxParts v log
  = bind (Decode.step (Decode.Any fuel bits) bits
            {| Decode.state := s; Decode.offset := Decode.offset v + 1;
               Decode.parts := Decode.parts v |})
      (Decode.loop fuel bits maxParts) log.
Proof.
  intros Hstate Hbyte Hsig Hpayload Hcount.
  rewrite loop_iterate
    by (destruct v; apply guard_at; cbn [Decode.offset Decode.parts] in *; [lia | assumption]).
  rewrite (bind_of_Return _ _ _ _ _
             (step_READY_known _ bits v log s Hstate ltac:(now rewrite Hbyte))).
  now rewrite loop_iterate by (now apply guard_at).
Qed.

(** X5. Where the decoder reads the signature [i] or [r] and the buffer
    goes on after it, it appends the [IntegerMP] of the four bytes, or the
    [RealMP] of the eight bytes, that follow the signature and continues
    four, or eight, bytes further. When fewer bytes than that are left the
    value is 0 and the offset ends past the end of the buffer. *)
Theorem fixed_width_entries (fuel : nat) (bits : list byte) (maxParts : option Z)
    (v : Decode.Vars) (log : Messages) (b : byte)
    (Hstate : Decode.state v = Decode.READY)
    (Hbyte : JS.get bits (Decode.offset v) = Some b)
    (Hpayload : Decode.offset v + 1 < JS.length bits)
    (Hcount : Decode.lt_maxParts (JS.length (Decode.parts v)) maxParts = true) :
  (b = "i"%byte ->
   Decode.loop (S (S fuel)) bits maxParts v log
   = Decode.loop fuel bits maxParts
       {| Decode.state := Decode.READY; Decode.offset := Decode.offset v + 1 + 4;
          Decode.parts :=
            Decode.parts v ++ [IntegerMP (Decode.Int32 bits (Decode.offset v + 1))] |}
       log /\
   (JS.length bits < Decode.offset v + 1 + 4 ->
    Decode.Int32 bits (Decode.offset v + 1) = 0)) /\
  (b = "r"%byte ->
   Decode.loop (S (S fuel)) bits maxParts v log
   = Decode.loop fuel bits maxParts
       {| Decode.state := Decode.READY; Decode.offset := Decode.offset v + 1 + 8;
          Decode.parts :=
            Decode.parts v ++ [RealMP (Decode.Float64 bits (Decode.offset v + 1))] |}
       log /\
   (JS.length bits < Decode.offset v + 1 + 8 ->
    Decode.Float64 bits (Decode.offset v + 1) = S754_zero false)).
Proof.
  split; intros ->.
  - split; [|apply Int32_past_end].
    now rewrite (loop_at_signature fuel bits maxParts v log "i"%byte Decode.INTEGER_MP).
  - split; [|apply Float64_past_end].
    now rewrite (loop_at_signature fuel bits maxParts v log "r"%byte Decode.REAL_MP).
Qed.

Lemma fixed_width_entries_witness :
  Decode.Any 3 (bytes_of [105; 254; 255; 255; 255]) 0 None []
  = Return {| Decode.res_parts := [IntegerMP (-2)]; Decode.bytesRead := 5 |} [] /\
  Decode.Any 3 (bytes_of [114; 0; 0]) 0 None []
  = Return {| Decode.res_parts := [RealMP (S754_zero false)]; Decode.bytesRead := 9 |} [].
Proof.
  split.
  - unfold Decode.Any, bind.
    rewrite (proj1 (proj1 (fixed_width_entries 1 (bytes_of [105; 254; 255; 255; 255]) None
                             {| Decode.state := Decode.READY; Decode.offset := 0;
                                Decode.parts := [] |} [] "i"%byte
                             eq_refl eq_refl eq_refl eq_refl) eq_refl)).
    reflexivity.
  - unfold Decode.Any, bind.
    rewrite (proj1 (proj2 (fixed_width_entries 1 (bytes_of [114; 0; 0]) None
                             {| Decode.state := Decode.READY; Decode.offset := 0;
                                Decode.parts := [] |} [] "r"%byte
                             eq_refl eq_refl eq_refl eq_refl) eq_refl)).
    reflexivity.
Defined.

Lemma string_case_returns (build : string -> Value) (new_build : string -> M Value)
    (bits : list byte) (v : Decode.Vars) (log : Messages) :
  (forall s l, new_build s l = Return (build s) l) ->
  Decode.string_case new_build bits v log
  = Return {| Decode.state := Decode.READY;
              Decode.offset := Decode.offset v + (Decode.Int32 bits (Decode.offset v) + 4);
              Decode.parts :=
                Decode.parts v
                ++ [build (Decode.String bits (Decode.offset v + 4)
                             (Decode.Int32 bits (Decode.offset v)))] |} log.
Proof.
  intros Hbuild. unfold Decode.string_case.
  now rewrite (bind_of_Return _ _ _ _ _ (Hbuild _ _)).
Qed.

(** X6. Where the decoder reads one of the signatures [I], [R], [s], [S]
    and the buffer goes on after it, it never throws: it appends the
    [IntegerAP], [RealAP], [Symbol] or [String] of the text of the entry and
    continues [length + 4] bytes after the signature, [length] being the
    integer that follows the signature. For a length of 0 or more the text
    is made of the bytes after the length field, up to the end of the
    buffer at most. *)
Theorem string_entries (fuel : nat) (bits : list byte) (maxParts : option Z)
    (v : Decode.Vars) (log : Messages) (b : byte) (build : string -> Value)
    (Hstate : Decode.state v = Decode.READY)
    (Hbyte : JS.get bits (Decode.offset v) = Some b)
    (Hbuild : string_constructor b = Some build)
    (Hpayload : Decode.offset v + 1 < JS.length bits)
    (Hcount : Decode.lt_maxParts (JS.length (Decode.parts v)) maxParts = true) :
  let length := Decode.Int32 bits (Decode.offset v + 1) in
  Decode.loop (S (S fuel)) bits maxParts v log
  = Decode.loop fuel bits maxParts
      {| Decode.state := Decode.READY;
         Decode.offset := Decode.offset v + 1 + (length + 4);
         Decode.parts :=
           Decode.parts v ++ [build (Decode.String bits (Decode.offset v + 1 + 4) length)] |}
      log /\
  (0 <= length ->
   Decode.String bits (Decode.offset v + 1 + 4) length
   = text_of (run bits (Decode.offset v + 1 + 4) length)).
Proof.
  cbn zeta. split.
  - unfold string_constructor in Hbuild.
    destruct (Byte.eqb b "I") eqn:EI;
      [|destruct (Byte.eqb b "R") eqn:ER;
        [|destruct (Byte.eqb b "s") eqn:Es;
          [|destruct (Byte.eqb b "S") eqn:ES; [|discriminate]]]];
      injection Hbuild as <-;
      match goal with
      | E : Byte.eqb b _ = true |- _ => apply Byte.byte_dec_bl in E; subst b
      end.
    + rewrite (loop_at_signature fuel bits maxParts v log "I"%byte Decode.INTEGER_AP)
        by (assumption || reflexivity).
      cbn [Decode.step Decode.state].
      now rewrite (bind_of_Return _ _ _ _ _
                     (string_case_returns IntegerAP new_IntegerAP bits _ log
                        new_IntegerAP_returns)).
    + rewrite (loop_at_signature fuel bits maxParts v log "R"%byte Decode.REAL_AP)
        by (assumption || reflexivity).
      cbn [Decode.step Decode.state].
      now rewrite (bind_of_Return _ _ _ _ _
                     (string_case_returns RealAP new_RealAP bits _ log
                        new_RealAP_returns)).
    + rewrite (loop_at_signature fuel bits maxParts v log "s"%byte Decode.SYMBOL)
        by (assumption || reflexivity).
      cbn [Decode.step Decode.state].
      now rewrite (bind_of_Return _ _ _ _ _
                     (string_case_returns Symbol new_Symbol bits _ log
                        (fun _ _ => eq_refl))).
    + rewrite (loop_at_signature fuel bits maxParts v log "S"%byte Decode.STRING)
        by (assumption || reflexivity).
      cbn [Decode.step Decode.state].
      now rewrite (bind_of_Return _ _ _ _ _
                     (string_case_returns String new_String bits _ log
                        (fun _ _ => eq_refl))).
  - intros Hlen. apply String_of_run; [|assumption].
    apply get_in_range in Hbyte. lia.
Qed.

Lemma string_entries_witness :
  Decode.Any 3 (bytes_of [83; 2; 0; 0; 0; 72; 105]) 0 None []
  = Return {| Decode.res_parts := [String "Hi"]; Decode.bytesRead := 7 |} [].
Proof.
  unfold Decode.Any, bind.
  rewrite (proj1 (string_entries 1 (bytes_of [83; 2; 0; 0; 0; 72; 105]) None
                    {| Decode.state := Decode.READY; Decode.offset := 0;
                       Decode.parts := [] |} [] "S"%byte String
                    eq_refl eq_refl eq_refl eq_refl eq_refl)).
  reflexivity.
Defined.

(** ** What the decoder logs and throws *)

Lemma warns_ret {A : Type} (a : A) (log : Messages) :
  warns_or_fails_on_head log (Return a log).
Proof. exists []. split; [now rewrite app_nil_r | constructor]. Qed.

Lemma warns_bind {A B : Type} (c : M A) (k : A -> M B) (log : Messages) :
  warns_or_fails_on_head log (c log) ->
  (forall a l, warns_or_fails_on_head l (k a l)) ->
  warns_or_fails_on_head log (bind c k log).
Proof.
  intros Hc Hk. unfold bind. destruct (c log) as [a l| e l |]; [|exact Hc|exact I].
  destruct Hc as (ws & -> & Hws). specialize (Hk a (log ++ ws)).
  destruct (k a (log ++ ws)) as [b l| e l |]; [| |exact I].
  - destruct Hk as (ws' & -> & Hws'). exists (ws ++ ws').
    split; [now rewrite app_assoc | now apply Forall_app].
  - destruct Hk as (He & ws' & -> & Hws'). split; [exact He|].
    exists (ws ++ ws'). split; [now rewrite <- !app_assoc | now apply Forall_app].
Qed.

Lemma warns_new_Expression (head : option Value) (parts : list Value) (log : Messages) :
  warns_or_fails_on_head log (new_Expression head parts log).
Proof.
  assert (warns_or_fails_on_head log (@Fail Value head_error log)) as Hfail.
  { split; [reflexivity|]. exists []. split; [reflexivity | constructor]. }
  unfold new_Expression. destruct head as [h|]; [|exact Hfail].
  destruct (negb (instanceof_Symbol (Some h))); [exact Hfail | apply warns_ret].
Qed.

Lemma warns_step (any : Z -> option Z -> M Decode.AnyResult) (bits : list byte)
    (v : Decode.Vars) (log : Messages) :
  (forall o m l, warns_or_fails_on_head l (any o m l)) ->
  warns_or_fails_on_head log (Decode.step any bits v log).
Proof.
  intros Hany. unfold Decode.step.
  destruct (Decode.state v).
  - apply warns_bind; [|intros; apply warns_ret].
    destruct (Decode.signature _); [apply warns_ret|].
    exists [("W", Decode.unknown_type_text (JS.get bits (Decode.offset v))
                    (Decode.offset v))].
    split; [reflexivity|]. repeat constructor.
  - apply warns_ret.
  - rewrite (string_case_returns IntegerAP new_IntegerAP bits v log new_IntegerAP_returns).
    apply warns_ret.
  - apply warns_ret.
  - rewrite (string_case_returns RealAP new_RealAP bits v log new_RealAP_returns).
    apply warns_ret.
  - apply warns_ret.
  - apply warns_ret.
  - apply warns_bind; [apply Hany|]. intros r l.
    apply warns_bind; [apply warns_new_Expression|]. intros; apply warns_ret.
  - destruct (read_sizes_pure bits (trip_count (Some (Decode.Int32 bits (Decode.offset v))))
                ([], Decode.offset v + 4) log) as ([sizes o] & Hsizes).
    rewrite (bind_of_Return _ _ _ _ _ Hsizes).
    destruct (ParseMatrixAtLevel_pure bits o sizes
                (Decode.Int32 bits (Decode.offset v) - 1) log) as (r & Hr & _).
    rewrite (bind_of_Return _ _ _ _ _ Hr). apply warns_ret.
Qed.

Lemma warns_loop (bits : list byte) (fuel : nat) :
  forall (maxParts : option Z) (v : Decode.Vars) (log : Messages),
    warns_or_fails_on_head log (Decode.loop fuel bits maxParts v log).
Proof.
  induction fuel as [|fuel IH]; intros maxParts v log; [exact I|].
  rewrite loop_S. destruct (Decode.guard bits maxParts v); [|apply warns_ret].
  apply warns_bind; [|intros; apply IH].
  apply warns_step. intros o m l. unfold Decode.Any.
  apply warns_bind; [apply IH | intros; apply warns_ret].
Qed.

(** X7. The only error of the module that [Mma.Decode.Any] throws, that
    is, the only string thrown by [Mma.Fail], is the one of
    [Mma.Expression] about a head that is no symbol: the tests of
    [Mma.IntegerAP] and [Mma.RealAP] never fire and no other call of
    [Mma.Fail] is reached. [Mma.Messages] only grows: a call that returns
    has appended warnings and nothing else, a call that throws the error of
    the module has appended warnings and then the one error message.
    Errors of the engine, such as the [RangeError] of a call stack
    exhausted by deep nesting, are no strings of [Mma.Fail]: the statement
    leaves them aside. *)
Theorem Any_warns_or_fails_on_head (fuel : nat) (bits : list byte) (offset : Z)
    (maxParts : option Z) (log : Messages) :
  (forall r log',
      Decode.Any fuel bits offset maxParts log = Return r log' ->
      exists warnings, log' = log ++ warnings /\ Forall is_warning warnings) /\
  (forall text log',
      Decode.Any fuel bits offset maxParts log = Throw (MmaError text) log' ->
      text = String.append "Mma.js ERROR: " head_error /\
      exists warnings,
        log' = log ++ warnings ++ [("E", head_error)] /\ Forall is_warning warnings).
Proof.
  assert (warns_or_fails_on_head log (Decode.Any fuel bits offset maxParts log)) as H.
  { unfold Decode.Any. apply warns_bind; [apply warns_loop | intros; apply warns_ret]. }
  split; intros x log' Hrun; rewrite Hrun in H.
  - exact H.
  - destruct H as (Htext & Hlog). injection Htext as Htext.
    split; [exact Htext | exact Hlog].
Qed.

Lemma Any_warns_or_fails_on_head_witness :
  exists warnings,
    [("W", Decode.unknown_type_text (Some x00) 0)] = [] ++ warnings
    /\ Forall is_warning warnings.
Proof.
  apply (proj1 (Any_warns_or_fails_on_head 4 (bytes_of [0; 105; 1; 0; 0; 0]) 0 None [])
           {| Decode.res_parts := [IntegerMP 1]; Decode.bytesRead := 6 |}).
  reflexivity.
Defined.

(** ** Termination *)









(** More fuel does not change an outcome that is not [OutOfFuel]. *)
Lemma step_more_fuel (any any' : Z -> option Z -> M Decode.AnyResult)
    (bits : list byte) (v : Decode.Vars) (log : Messages) :
  (forall o m l, any o m l <> OutOfFuel -> any' o m l = any o m l) ->
  Decode.step any bits v log <> OutOfFuel ->
  Decode.step any' bits v log = Decode.step any bits v log.
Proof.
  intros Hany. unfold Decode.step. destruct (Decode.state v); try reflexivity.
  intros H. apply bind_eq. apply Hany.
  intros Hfuel. apply H. now apply bind_OutOfFuel.
Qed.

Lemma loop_more_fuel (bits : list byte) (more : nat) (fuel : nat) :
  forall (maxParts : option Z) (v : Decode.Vars) (log : Messages),
    Decode.loop fuel bits maxParts v log <> OutOfFuel ->
    Decode.loop (fuel + more) bits maxParts v log = Decode.loop fuel bits maxParts v log.
Proof.
  induction fuel as [|fuel IH]; intros maxParts v log H; [now elim H|].
  change (S fuel + more)%nat with (S (fuel + more)).
  rewrite !loop_S in *. destruct (Decode.guard bits maxParts v); [|reflexivity].
  assert (Decode.step (Decode.Any fuel bits) bits v log <> OutOfFuel) as Hstep.
  { intros Hfuel. apply H. now apply bind_OutOfFuel. }
  rewrite (bind_eq _ _ _ _
             (step_more_fuel (Decode.Any fuel bits) (Decode.Any (fuel + more) bits)
                bits v log
                ltac:(intros o m l Ho; unfold Decode.Any in *; unfold bind in *;
                      rewrite IH; [reflexivity|];
                      intros Hfuel; now rewrite Hfuel in Ho)
                Hstep)).
  unfold bind in *.
  destruct (Decode.step (Decode.Any fuel bits) bits v log) as [v1 l1| |];
    [|reflexivity|reflexivity].
  now apply IH.
Qed.

Lemma Any_more_fuel (bits : list byte) (fuel more : nat) (offset : Z)
    (maxParts : option Z) (log : Messages) :
  Decode.Any fuel bits offset maxParts log <> OutOfFuel ->
  Decode.Any (fuel + more) bits offset maxParts log
  = Decode.Any fuel bits offset maxParts log.
Proof.
  unfold Decode.Any. intros H. apply bind_eq. apply loop_more_fuel.
  intros Hfuel. apply H. now apply bind_OutOfFuel.
Qed.



(** ** The matrix decoder on any input *)



(** At a negative level neither loop of [ParseMatrixAtLevel] runs. *)
Lemma ParseMatrixAtLevel_negative_level (bits : list byte) (offset : Z)
    (sizes : list Z) (level : Z) (log : Messages) :
  level < 0 ->
  Decode.ParseMatrixAtLevel bits offset sizes level log
  = Return {| Decode.expr := List_of []; Decode.pm_bytesRead := 0 |} log.
Proof.
  intros Hneg. unfold Decode.ParseMatrixAtLevel.
  destruct (Z.ltb_spec level 0) as [_|Hpos]; [|lia].
  rewrite negative_level_bound by assumption.
  cbn [for_loop]. rewrite bind_of_Return with (a := ([], offset)) (log1 := log)
    by reflexivity.
  rewrite finish_list_returns. cbn [fst snd]. do 2 f_equal. lia.
Qed.



(** X10. Where the decoder reads the signature [e] followed by a dimension
    count of zero or less (which is also what a count cut short by the end
    of the buffer reads as), it reads no size and no float: it appends an
    empty [List] and continues four bytes after the signature. *)
Theorem matrix_without_dimensions (fuel : nat) (bits : list byte)
    (maxParts : option Z) (v : Decode.Vars) (log : Messages)
    (Hstate : Decode.state v = Decode.READY)
    (Hbyte : JS.get bits (Decode.offset v) = Some "e"%byte)
    (Hpayload : Decode.offset v + 1 < JS.length bits)
    (Hcount : Decode.lt_maxParts (JS.length (Decode.parts v)) maxParts = true)
    (Hdims : Decode.Int32 bits (Decode.offset v + 1) <= 0) :
  Decode.loop (S (S fuel)) bits maxParts v log
  = Decode.loop fuel bits maxParts
      {| Decode.state := Decode.READY; Decode.offset := Decode.offset v + 1 + 4;
         Decode.parts := Decode.parts v ++ [List_of []] |} log.
Proof.
  rewrite (loop_at_signature fuel bits maxParts v log "e"%byte Decode.REAL_MATRIX)
    by (assumption || reflexivity).
  cbn [Decode.step Decode.state Decode.offset Decode.parts].
  set (n := Decode.Int32 bits (Decode.offset v + 1)) in *.
  replace (trip_count (Some n)) with O by (cbn; lia).
  cbn [for_loop]. rewrite bind_assoc, (bind_of_Return _ _ _ log ([], _) eq_refl).
  rewrite bind_assoc,
    (bind_of_Return _ _ _ _ _
       (ParseMatrixAtLevel_negative_level bits (Decode.offset v + 1 + 4) [] (n - 1) log
          ltac:(lia))).
  cbn [Decode.expr Decode.pm_bytesRead]. rewrite Z.add_0_r.
  reflexivity.
Qed.

Lemma matrix_without_dimensions_witness :
  Decode.Any 3 (bytes_of [101; 0; 0; 0; 0]) 0 None []
  = Return {| Decode.res_parts := [List_of []]; Decode.bytesRead := 5 |} [].
Proof.
  unfold Decode.Any, bind.
  rewrite (matrix_without_dimensions 1 (bytes_of [101; 0; 0; 0; 0]) None
             {| Decode.state := Decode.READY; Decode.offset := 0;
                Decode.parts := [] |} [] eq_refl eq_refl eq_refl eq_refl).
  - reflexivity.
  - vm_compute. discriminate.
Defined.

(** ** Invariants of the values decoded *)

Section DeepInvariant.

(** A property of values that holds of every atom the decoder builds and of
    an expression whose head and parts have it. *)
Variable P : Value -> bool.
Hypothesis P_IntegerMP : forall bits o, P (IntegerMP (Decode.Int32 bits o)) = true.
Hypothesis P_IntegerAP : forall s, P (IntegerAP s) = true.
Hypothesis P_RealMP : forall x, P (RealMP x) = true.
Hypothesis P_RealAP : forall s, P (RealAP s) = true.
Hypothesis P_Symbol : forall s, P (Symbol s) = true.
Hypothesis P_String : forall s, P (String s) = true.
Hypothesis P_Expression :
  forall h ps, P h = true -> forallb P ps = true -> P (Expression h ps) = true.

Lemma matrix_invariant (bits : list byte) (sizes : list Z) (level : nat) :
  forall (offset : Z) (log : Messages),
  exists r, Decode.ParseMatrixAtLevel_nat bits sizes level offset log = Return r log
            /\ P (Decode.expr r) = true.
Proof.
  induction level as [|below IH]; intros offset log.
  - destruct (for_loop_invariant
                (fun s : list Value * Z => forallb P (fst s) = true)
                (Decode.read_float bits)
                (trip_count (JS.get sizes (JS.length sizes - 1))))
      with (s := (@nil Value, offset)) (log := log) as (s & Hloop & Hs);
      [| reflexivity |].
    + intros [l o] lg Hl. eexists. split; [reflexivity|].
      cbn [fst] in *. now rewrite forallb_snoc, Hl, P_RealMP.
    + eexists. split.
      * cbn [Decode.ParseMatrixAtLevel_nat].
        rewrite (bind_of_Return _ _ _ _ _ Hloop). apply finish_list_returns.
      * cbn [Decode.expr]. now apply P_Expression.
  - destruct (for_loop_invariant
                (fun s : list Value * Z => forallb P (fst s) = true)
                (Decode.read_sublist (Decode.ParseMatrixAtLevel_nat bits sizes below))
                (trip_count (JS.get sizes (JS.length sizes - Z.of_nat (S below) - 1))))
      with (s := (@nil Value, offset)) (log := log) as (s & Hloop & Hs);
      [| reflexivity |].
    + intros [l o] lg Hl. destruct (IH o lg) as (r & Hr & Hwf).
      eexists. split.
      * unfold Decode.read_sublist. rewrite (bind_of_Return _ _ _ _ _ Hr).
        reflexivity.
      * cbn [fst] in *. now rewrite forallb_snoc, Hl, Hwf.
    + eexists. split.
      * cbn [Decode.ParseMatrixAtLevel_nat].
        rewrite (bind_of_Return _ _ _ _ _ Hloop). apply finish_list_returns.
      * cbn [Decode.expr]. now apply P_Expression.
Qed.

Lemma step_invariant (any : Z -> option Z -> M Decode.AnyResult) (bits : list byte)
    (v v' : Decode.Vars) (log log' : Messages) :
  (forall o m l r l', any o m l = Return r l' -> forallb P (Decode.res_parts r) = true) ->
  forallb P (Decode.parts v) = true ->
  Decode.step any bits v log = Return v' log' ->
  forallb P (Decode.parts v') = true.
Proof.
  intros Hany Hv. unfold Decode.step.
  destruct (Decode.state v).
  - intros H. apply bind_Return in H. destruct H as (s & l1 & _ & H).
    now injection H as <- _.
  - intros [= <- _]. cbn [Decode.parts]. now rewrite forallb_snoc, Hv, P_IntegerMP.
  - rewrite (string_case_returns IntegerAP new_IntegerAP bits v log new_IntegerAP_returns).
    intros [= <- _]. cbn [Decode.parts]. now rewrite forallb_snoc, Hv, P_IntegerAP.
  - intros [= <- _]. cbn [Decode.parts]. now rewrite forallb_snoc, Hv, P_RealMP.
  - rewrite (string_case_returns RealAP new_RealAP bits v log new_RealAP_returns).
    intros [= <- _]. cbn [Decode.parts]. now rewrite forallb_snoc, Hv, P_RealAP.
  - intros [= <- _]. cbn [Decode.parts]. now rewrite forallb_snoc, Hv, P_Symbol.
  - intros [= <- _]. cbn [Decode.parts]. now rewrite forallb_snoc, Hv, P_String.
  - intros H. apply bind_Return in H. destruct H as (r & l1 & Hr & H).
    apply bind_Return in H. destruct H as (x & l2 & Hx & H).
    injection H as <- _. cbn [Decode.parts]. rewrite forallb_snoc, Hv. cbn [andb].
    apply new_Expression_Return in Hx. destruct Hx as (name & Hhead & -> & _).
    apply Hany in Hr. apply P_Expression; [apply P_Symbol|].
    rewrite slice_from_skipn by lia.
    rewrite <- (firstn_skipn (Z.to_nat 1) (Decode.res_parts r)), forallb_app in Hr.
    now apply andb_true_iff in Hr.
  - destruct (read_sizes_pure bits (trip_count (Some (Decode.Int32 bits (Decode.offset v))))
                ([], Decode.offset v + 4) log) as ([sizes o] & Hsizes).
    rewrite (bind_of_Return _ _ _ _ _ Hsizes).
    assert (exists r, Decode.ParseMatrixAtLevel bits o sizes
                        (Decode.Int32 bits (Decode.offset v) - 1) log = Return r log
                      /\ P (Decode.expr r) = true) as (r & Hr & Hwf).
    { unfold Decode.ParseMatrixAtLevel.
      destruct (Z.ltb_spec (Decode.Int32 bits (Decode.offset v) - 1) 0).
      - rewrite negative_level_bound by assumption. eexists. split; [reflexivity|].
        cbn [Decode.expr]. now apply P_Expression.
      - apply matrix_invariant. }
    rewrite (bind_of_Return _ _ _ _ _ Hr).
    intros [= <- _]. cbn [Decode.parts]. now rewrite forallb_snoc, Hv, Hwf.
Qed.

Lemma loop_invariant (bits : list byte) (fuel : nat) :
  forall (maxParts : option Z) (v v' : Decode.Vars) (log log' : Messages),
    forallb P (Decode.parts v) = true ->
    Decode.loop fuel bits maxParts v log = Return v' log' ->
    forallb P (Decode.parts v') = true.
Proof.
  induction fuel as [|fuel IH]; intros maxParts v v' log log' Hv H; [discriminate|].
  rewrite loop_S in H. destruct (Decode.guard bits maxParts v).
  - apply bind_Return in H. destruct H as (v1 & log1 & Hstep & Hrest).
    apply (IH maxParts v1 v' log1 log'); [|assumption].
    apply (step_invariant (Decode.Any fuel bits) bits v v1 log log1);
      [|assumption|assumption].
    intros o m l r l' Hr. apply Any_Return in Hr.
    destruct Hr as (w & Hw & -> & _).
    apply (fun Hinit => IH m _ w l l' Hinit Hw). reflexivity.
  - now injection H as <- <-.
Qed.

Lemma Any_invariant (fuel : nat) (bits : list byte) (offset : Z)
    (maxParts : option Z) (log log' : Messages) (r : Decode.AnyResult) :
  Decode.Any fuel bits offset maxParts log = Return r log' ->
  forallb P (Decode.res_parts r) = true.
Proof.
  intros H. apply Any_Return in H. destruct H as (v & Hv & -> & _).
  apply (fun Hinit => loop_invariant bits fuel maxParts _ v log log' Hinit Hv).
  reflexivity.
Qed.

End DeepInvariant.

Lemma integers_are_int32_Expression (h : Value) (ps : list Value) :
  integers_are_int32 (Expression h ps)
  = integers_are_int32 h && forallb integers_are_int32 ps.
Proof. reflexivity. Qed.

(** X11. Every [IntegerMP] in a sequence returned by [Mma.Decode.Any], at
    any depth of the expressions in it, holds a signed 32-bit integer. *)
Theorem decoded_integers_are_int32 (fuel : nat) (bits : list byte) (offset : Z)
    (maxParts : option Z) (log log' : Messages) (r : Decode.AnyResult)
    (Hrun : Decode.Any fuel bits offset maxParts log = Return r log') :
  forallb integers_are_int32 (Decode.res_parts r) = true.
Proof.
  refine (Any_invariant integers_are_int32 _ (fun _ => eq_refl) (fun _ => eq_refl)
            (fun _ => eq_refl) (fun _ => eq_refl) (fun _ => eq_refl) _
            fuel bits offset maxParts log log' r Hrun).
  - intros b o. cbn [integers_are_int32].
    pose proof (Int32_range b o) as (Hlo & Hhi).
    apply andb_true_iff. split; [now apply Z.leb_le | now apply Z.ltb_lt].
  - intros h ps Hh Hps. now rewrite integers_are_int32_Expression, Hh, Hps.
Qed.

Lemma decoded_integers_are_int32_witness :
  forallb integers_are_int32 [IntegerMP (-2)] = true.
Proof.
  apply (decoded_integers_are_int32 3 (bytes_of [105; 254; 255; 255; 255]) 0 None [] []
           {| Decode.res_parts := [IntegerMP (-2)]; Decode.bytesRead := 5 |}).
  reflexivity.
Defined.

(** ** The preprocessor and the decoder together *)

Lemma without_artifacts_insert (s1 s2 : JS.text) (c : Z) :
  c = 92 \/ c = 10 \/ c = 34 ->
  without_artifacts (s1 ++ c :: s2) = without_artifacts (s1 ++ s2).
Proof.
  intros Hc. unfold without_artifacts.
  rewrite !filter_app. cbn [filter].
  now destruct Hc as [-> | [-> | ->]].
Qed.

Lemma without_artifacts_idempotent (s : JS.text) :
  without_artifacts (without_artifacts s) = without_artifacts s.
Proof.
  unfold without_artifacts.
  induction s as [|c l IH]; [reflexivity|].
  cbn [filter]. destruct (negb (existsb (Z.eqb c) artifact_codes)) eqn:Hc; [|exact IH].
  cbn [filter]. now rewrite Hc, IH.
Qed.

Section PreprocessorAndDecoder.

Variable atob : JS.text -> option string.
Variable inflate : list byte -> option (list byte).

(** [Mma.Decompress] depends on its input through the input without its
    artifacts only. *)
Lemma Decompress_of_stripped (s : JS.text) (log : Messages) :
  Decompress atob inflate s log
  = bind (Util.Base64Decode atob (JS.slice_from (JS.trim (without_artifacts s)) 2))
      (fun bitsCompressed =>
         bind (match inflate bitsCompressed with
               | Some bits => ret bits
               | None => fun log => Throw (Native "pako.inflate") log
               end)
           (fun bits =>
              bind (if negb (String.eqb (Util.U8ArrayToString (JS.slice bits 0 4)) "!boR")
                    then Warn (String.concat ""
                                 ["Decompress: unknown header string ";
                                  Util.U8ArrayToString (JS.slice bits 0 4);
                                  " (expected !boR)"])
                    else ret tt)
                (fun _ => ret (JS.slice_from bits 4)))) log.
Proof.
  unfold Decompress. now rewrite strip_loop_without_artifacts.
Qed.

(** X12. [Mma.Decompress] is blind to backslashes, newlines and double
    quotes: a text with such a character anywhere in it gives the outcome
    of the text without that character, and any text gives the outcome of
    the text with all of them deleted. *)
Theorem Decompress_ignores_artifacts (s1 s2 : JS.text) (c : Z) (log : Messages)
    (Hc : c = 92 \/ c = 10 \/ c = 34) :
  Decompress atob inflate (s1 ++ c :: s2) log
  = Decompress atob inflate (s1 ++ s2) log /\
  Decompress atob inflate (s1 ++ s2) log
  = Decompress atob inflate (without_artifacts (s1 ++ s2)) log.
Proof.
  rewrite !Decompress_of_stripped.
  rewrite without_artifacts_insert by exact Hc.
  now rewrite without_artifacts_idempotent.
Qed.

(** X13. [Mma.DecompressDecode] throws what [atob] or [pako.inflate]
    throws, before any byte is decoded; otherwise it is [Mma.Decode.Any] at
    offset 0, without a bound on the parts, on the inflated buffer less its
    first four bytes, whether these are the marker [!boR] or not: a wrong
    marker only puts one warning in the log before the decoding starts. *)
Theorem DecompressDecode_pipeline (fuel : nat) (compressedString : JS.text)
    (log : Messages) :
  DecompressDecode atob inflate fuel compressedString log
  = match atob (skipn 2 (JS.trim (without_artifacts compressedString))) with
    | None => Throw (Native "atob") log
    | Some binary =>
        match inflate (map byte_of_ascii (JS.chars binary)) with
        | None => Throw (Native "pako.inflate") log
        | Some bits =>
            Decode.Any fuel (skipn 4 bits) 0 None
              (if has_marker bits then log
               else log ++ [("W",
                             String.concat ""
                               ["Decompress: unknown header string ";
                                text_of (firstn 4 bits);
                                " (expected !boR)"])])
        end
    end.
Proof.
  unfold DecompressDecode. unfold bind at 1.
  rewrite Decompress_of_stripped. unfold Util.Base64Decode.
  rewrite slice_from_skipn by lia. change (Z.to_nat 2) with 2%nat.
  unfold bind at 1.
  destruct (atob _) as [binary|]; [|reflexivity].
  unfold ret at 1. unfold bind at 1.
  destruct (inflate _) as [bits|]; [|reflexivity].
  unfold ret at 1. unfold bind.
  rewrite header_has_marker, slice_from_skipn by lia.
  rewrite U8ArrayToString_map, slice_firstn by lia.
  destruct (has_marker bits); reflexivity.
Qed.

End PreprocessorAndDecoder.

Lemma Decompress_ignores_artifacts_witness :
  Decompress atob_plain Some (JS.units "1:e" ++ 10 :: JS.units "Jx") []
  = Decompress atob_plain Some (JS.units "1:e" ++ JS.units "Jx") [].
Proof.
  apply (Decompress_ignores_artifacts atob_plain Some
           (JS.units "1:e") (JS.units "Jx") 10 []).
  right. left. reflexivity.
Defined.

(** ** The bound on the parts *)

Lemma loop_appends (bits : list byte) (fuel : nat) :
  forall (maxParts : option Z) (v v' : Decode.Vars) (log log' : Messages),
    Decode.loop fuel bits maxParts v log = Return v' log' ->
    exists more, Decode.parts v' = Decode.parts v ++ more.
Proof.
  induction fuel as [|fuel IH]; intros maxParts v v' log log' H; [discriminate|].
  rewrite loop_S in H. destruct (Decode.guard bits maxParts v).
  - apply bind_Return in H. destruct H as (v1 & log1 & Hstep & Hrest).
    apply IH in Hrest. destruct Hrest as (more & ->).
    apply step_appends in Hstep; [|intros o m l r l'; apply Any_symbol_headed].
    destruct Hstep as [->|(x & -> & _)]; [eauto|].
    exists (x :: more). now rewrite <- app_assoc.
  - injection H as <- _. exists []. now rewrite app_nil_r.
Qed.

Lemma firstn_exact_length {A : Type} (l more : list A) (m : Z) :
  JS.length l = m -> firstn (Z.to_nat m) (l ++ more) = l.
Proof.
  intros <-. unfold JS.length. rewrite Nat2Z.id. apply firstn_exact.
Qed.

(** A loop that returns under some bound returns under any smaller bound,
    with the first parts of the same sequence. *)
Lemma loop_truncates (bits : list byte) (m : Z) (maxParts : option Z) :
  (forall m', maxParts = Some m' -> m <= m') ->
  forall (fuel : nat) (v v2 : Decode.Vars) (log log2 : Messages),
    JS.length (Decode.parts v) <= m ->
    Decode.loop fuel bits maxParts v log = Return v2 log2 ->
    exists v1 log1 later,
      Decode.loop fuel bits (Some m) v log = Return v1 log1 /\
      Decode.parts v1 = firstn (Z.to_nat m) (Decode.parts v2) /\
      log2 = log1 ++ later.
Proof.
  intros Hle. induction fuel as [|fuel IH]; intros v v2 log log2 Hv H; [discriminate|].
  pose proof H as Hwhole. rewrite loop_S in H. rewrite loop_S.
  destruct (Decode.guard bits maxParts v) eqn:Hbig.
  - destruct (Decode.guard bits (Some m) v) eqn:Hsmall.
    + apply bind_Return in H. destruct H as (v' & l' & Hstep & Hrest).
      rewrite (bind_of_Return _ _ _ _ _ Hstep).
      apply IH; [|assumption].
      apply guard_true in Hsmall. destruct Hsmall as (_ & Hlt).
      specialize (Hlt m eq_refl).
      apply step_appends in Hstep; [|intros o k l r l0; apply Any_symbol_headed].
      destruct Hstep as [->|(x & -> & _)]; [lia|].
      rewrite length_app. unfold JS.length at 2. cbn [List.length]. lia.
    + apply guard_true in Hbig. destruct Hbig as (Hin & _).
      apply guard_false in Hsmall. destruct Hsmall as [Hout|(m0 & [= <-] & Hfull)]; [lia|].
      destruct (loop_appends _ _ _ _ _ _ _ Hwhole) as (more & Hmore).
      pose proof (warns_loop bits (S fuel) maxParts v log) as Hlog.
      rewrite Hwhole in Hlog. destruct Hlog as (later & -> & _).
      exists v, log, later. split; [reflexivity|]. split; [|reflexivity].
      rewrite Hmore. symmetry. apply firstn_exact_length. lia.
  - injection H as <- <-.
    assert (Decode.guard bits (Some m) v = false) as ->.
    { apply guard_false. apply guard_false in Hbig.
      destruct Hbig as [Hout|(m' & Hm' & Hfull)]; [now left|].
      right. exists m. split; [reflexivity|]. specialize (Hle m' Hm'). lia. }
    exists v, log, []. split; [reflexivity|]. split; [|now rewrite app_nil_r].
    symmetry. apply firstn_all2. unfold JS.length in Hv. lia.
Qed.

(** X14. [maxParts] only cuts the sequence short. When a call of
    [Mma.Decode.Any] returns, the call with a smaller bound on the parts
    (any bound, if the first call had none), at the same offset, returns
    too, and earlier: its parts are the first [maxParts] parts of the first
    call and its log is the beginning of the first call's log. *)
Theorem maxParts_truncates (fuel : nat) (bits : list byte) (offset : Z)
    (maxParts : option Z) (log log2 : Messages) (r2 : Decode.AnyResult) (m : Z)
    (Hrun : Decode.Any fuel bits offset maxParts log = Return r2 log2)
    (Hm : 0 <= m)
    (Hle : forall m', maxParts = Some m' -> m <= m') :
  exists r1 log1 later,
    Decode.Any fuel bits offset (Some m) log = Return r1 log1 /\
    Decode.res_parts r1 = firstn (Z.to_nat m) (Decode.res_parts r2) /\
    log2 = log1 ++ later.
Proof.
  apply Any_Return in Hrun. destruct Hrun as (v2 & Hloop & Hparts & _).
  destruct (loop_truncates bits m maxParts Hle fuel
              {| Decode.state := Decode.READY; Decode.offset := offset;
                 Decode.parts := [] |} v2 log log2 Hm Hloop)
    as (v1 & log1 & later & Hsmall & Hfirst & Hlog).
  exists {| Decode.res_parts := Decode.parts v1;
            Decode.bytesRead := Decode.offset v1 - offset |}, log1, later.
  split; [|split; [|exact Hlog]].
  - unfold Decode.Any. now rewrite (bind_of_Return _ _ _ _ _ Hsmall).
  - cbn [Decode.res_parts]. now rewrite Hparts.
Qed.

Lemma maxParts_truncates_witness :
  exists r1 log1 later,
    Decode.Any 5 (bytes_of [105; 1; 0; 0; 0; 105; 2; 0; 0; 0]) 0 (Some 1) []
    = Return r1 log1 /\
    Decode.res_parts r1 = firstn (Z.to_nat 1) [IntegerMP 1; IntegerMP 2] /\
    [] = log1 ++ later.
Proof.
  apply (maxParts_truncates 5 (bytes_of [105; 1; 0; 0; 0; 105; 2; 0; 0; 0]) 0 None
           [] [] {| Decode.res_parts := [IntegerMP 1; IntegerMP 2];
                    Decode.bytesRead := 10 |} 1).
  - reflexivity.
  - lia.
  - discriminate.
Defined.

(** ** Resuming and starting below the buffer *)

(** A bounded run that returns is the beginning of the run under a larger
    bound: whatever the latter returns from where the former stopped, it
    returns from the start. *)
Lemma loop_resume (bits : list byte) (m : Z) (maxParts : option Z) (more : nat) :
  (forall m', maxParts = Some m' -> m <= m') ->
  forall (fuel : nat) (v v1 w : Decode.Vars) (log log1 log2 : Messages),
    Decode.loop fuel bits (Some m) v log = Return v1 log1 ->
    Decode.loop more bits maxParts v1 log1 = Return w log2 ->
    Decode.loop (fuel + more) bits maxParts v log = Return w log2.
Proof.
  intros Hle. induction fuel as [|fuel IH]; intros v v1 w log log1 log2 H Hrest;
    [discriminate|].
  rewrite loop_S in H. destruct (Decode.guard bits (Some m) v) eqn:Hsmall.
  - apply bind_Return in H. destruct H as (v' & l' & Hstep & Hloop).
    change (S fuel + more)%nat with (S (fuel + more)).
    rewrite loop_iterate.
    + rewrite (bind_eq _ _ _ _
                 (step_more_fuel (Decode.Any fuel bits) (Decode.Any (fuel + more) bits)
                    bits v log
                    ltac:(intros o k l Ho; now apply Any_more_fuel)
                    ltac:(now rewrite Hstep))).
      rewrite (bind_of_Return _ _ _ _ _ Hstep). exact (IH v' v1 w l' log1 log2 Hloop Hrest).
    + apply guard_true in Hsmall. destruct Hsmall as (Hin & Hlt).
      apply guard_true. split; [assumption|].
      intros m' Hm'. specialize (Hle m' Hm'). specialize (Hlt m eq_refl). lia.
  - injection H as <- <-.
    rewrite Nat.add_comm. rewrite loop_more_fuel; [assumption|]. now rewrite Hrest.
Qed.

(** An iteration only appends: it does the same whatever is already in
    [parts]. *)
Lemma step_frame (any : Z -> option Z -> M Decode.AnyResult) (bits : list byte)
    (pre : list Value) (v v' : Decode.Vars) (log log' : Messages) :
  Decode.step any bits v log = Return v' log' ->
  Decode.step any bits (with_parts_before pre v) log
  = Return (with_parts_before pre v') log'.
Proof.
  unfold Decode.step, Decode.string_case, with_parts_before.
  cbn [Decode.state Decode.offset Decode.parts].
  destruct (Decode.state v).
  - intros H. apply bind_Return in H. destruct H as (s & l & Hs & [= <- <-]).
    rewrite (bind_of_Return _ _ _ _ _ Hs). reflexivity.
  - intros H. apply bind_Return in H. destruct H as (x & l & Hx & [= <- <-]).
    rewrite (bind_of_Return _ _ _ _ _ Hx). cbn. now rewrite app_assoc.
  - intros H. apply bind_Return in H. destruct H as (x & l & Hx & [= <- <-]).
    rewrite (bind_of_Return _ _ _ _ _ Hx). cbn. now rewrite app_assoc.
  - intros H. apply bind_Return in H. destruct H as (x & l & Hx & [= <- <-]).
    rewrite (bind_of_Return _ _ _ _ _ Hx). cbn. now rewrite app_assoc.
  - intros H. apply bind_Return in H. destruct H as (x & l & Hx & [= <- <-]).
    rewrite (bind_of_Return _ _ _ _ _ Hx). cbn. now rewrite app_assoc.
  - intros H. apply bind_Return in H. destruct H as (x & l & Hx & [= <- <-]).
    rewrite (bind_of_Return _ _ _ _ _ Hx). cbn. now rewrite app_assoc.
  - intros H. apply bind_Return in H. destruct H as (x & l & Hx & [= <- <-]).
    rewrite (bind_of_Return _ _ _ _ _ Hx). cbn. now rewrite app_assoc.
  - intros H. apply bind_Return in H. destruct H as (d & l & Hd & H).
    apply bind_Return in H. destruct H as (x & l2 & Hx & [= <- <-]).
    rewrite (bind_of_Return _ _ _ _ _ Hd), (bind_of_Return _ _ _ _ _ Hx).
    cbn. now rewrite app_assoc.
  - intros H. apply bind_Return in H. destruct H as ([sizes o] & l & Hs & H).
    apply bind_Return in H. destruct H as (pm & l2 & Hpm & [= <- <-]).
    rewrite (bind_of_Return _ _ _ _ _ Hs), (bind_of_Return _ _ _ _ _ Hpm).
    cbn. now rewrite app_assoc.
Qed.

Lemma guard_frame (bits : list byte) (pre : list Value) (maxParts : option Z)
    (v : Decode.Vars) :
  Decode.guard bits (more_parts (JS.length pre) maxParts) (with_parts_before pre v)
  = Decode.guard bits maxParts v.
Proof.
  unfold Decode.guard, with_parts_before. cbn [Decode.offset Decode.parts].
  f_equal. rewrite length_app.
  destruct maxParts as [n|]; [|reflexivity].
  cbn [more_parts option_map Decode.lt_maxParts].
  destruct (JS.length (Decode.parts v) <? n) eqn:E.
  - apply Z.ltb_lt in E. apply Z.ltb_lt. lia.
  - apply Z.ltb_ge in E. apply Z.ltb_ge. lia.
Qed.

Lemma loop_frame (bits : list byte) (pre : list Value) (maxParts : option Z)
    (fuel : nat) :
  forall (v w : Decode.Vars) (log log' : Messages),
    Decode.loop fuel bits maxParts v log = Return w log' ->
    Decode.loop fuel bits (more_parts (JS.length pre) maxParts)
      (with_parts_before pre v) log
    = Return (with_parts_before pre w) log'.
Proof.
  induction fuel as [|fuel IH]; intros v w log log' H; [discriminate|].
  rewrite loop_S in *. rewrite guard_frame.
  destruct (Decode.guard bits maxParts v).
  - apply bind_Return in H. destruct H as (v' & l & Hstep & Hloop).
    rewrite (bind_of_Return _ _ _ _ _ (step_frame _ bits pre v v' log l Hstep)).
    now apply IH.
  - now injection H as <- <-.
Qed.

(** An iteration out of [READY] appends nothing; every other one ends in
    [READY]. *)
Lemma step_state (any : Z -> option Z -> M Decode.AnyResult) (bits : list byte)
    (v v' : Decode.Vars) (log log' : Messages) :
  Decode.step any bits v log = Return v' log' ->
  (Decode.state v = Decode.READY -> Decode.parts v' = Decode.parts v) /\
  (Decode.state v <> Decode.READY -> Decode.state v' = Decode.READY).
Proof.
  unfold Decode.step, Decode.string_case.
  destruct (Decode.state v); intros H; apply bind_Return in H;
    destruct H as (x & l & Hx & H);
    try (injection H as <- <-; split; [discriminate || reflexivity | reflexivity || (now intros [])]).
  - apply bind_Return in H. destruct H as (y & l2 & Hy & [= <- <-]).
    split; [discriminate | reflexivity].
  - destruct x as [sizes o]. apply bind_Return in H.
    destruct H as (y & l2 & Hy & [= <- <-]). split; [discriminate | reflexivity].
Qed.

(** A bounded run is between two entries whenever it holds as many values
    as it may. *)
Lemma loop_between_entries (bits : list byte) (m : Z) (fuel : nat) :
  forall (v w : Decode.Vars) (log log' : Messages),
    Decode.loop fuel bits (Some m) v log = Return w log' ->
    (Decode.state v <> Decode.READY -> JS.length (Decode.parts v) < m) ->
    Decode.state w <> Decode.READY -> JS.length (Decode.parts w) < m.
Proof.
  induction fuel as [|fuel IH]; intros v w log log' H Hv; [discriminate|].
  rewrite loop_S in H. destruct (Decode.guard bits (Some m) v) eqn:Hg.
  - apply bind_Return in H. destruct H as (v' & l & Hstep & Hloop).
    apply (IH v' w l log' Hloop).
    destruct (step_state _ _ _ _ _ _ Hstep) as [Hready Hother].
    intros Hv'. apply guard_true in Hg. destruct Hg as [_ Hlt].
    specialize (Hlt m eq_refl).
    destruct (Decode.state v) eqn:Hs;
      try (elim Hv'; apply Hother; discriminate).
    now rewrite (Hready eq_refl).
  - now injection H as <- <-.
Qed.

(** X15. Decoding can be resumed. When [Mma.Decode.Any] asked for [m] values
    returns [m] values read from [k] bytes, and a second call at
    [offset + k] returns, then one call at [offset] with [maxParts] raised
    by [m] returns the values of the first call followed by those of the
    second, and the sum of the two byte counts. *)
Theorem Any_resumes (fuel more : nat) (bits : list byte) (offset m k k' : Z)
    (maxParts : option Z) (ps qs : list Value) (log log1 log2 : Messages) :
  Decode.Any fuel bits offset (Some m) log
  = Return {| Decode.res_parts := ps; Decode.bytesRead := k |} log1 ->
  JS.length ps = m ->
  (forall n, maxParts = Some n -> 0 <= n) ->
  Decode.Any more bits (offset + k) maxParts log1
  = Return {| Decode.res_parts := qs; Decode.bytesRead := k' |} log2 ->
  Decode.Any (fuel + more) bits offset (more_parts m maxParts) log
  = Return {| Decode.res_parts := ps ++ qs; Decode.bytesRead := k + k' |} log2.
Proof.
  intros Hfirst Hlen Hpos Hsecond.
  apply Any_Return in Hfirst. destruct Hfirst as (v1 & Hloop1 & Hps & Hk).
  apply Any_Return in Hsecond. destruct Hsecond as (v2 & Hloop2 & Hqs & Hk').
  cbn [Decode.res_parts Decode.bytesRead] in *.
  assert (Decode.state v1 = Decode.READY) as Hready.
  { destruct (Decode.state v1) eqn:Hs; [reflexivity| ..];
      (assert (JS.length (Decode.parts v1) < m);
       [ apply (loop_between_entries bits m fuel _ v1 log log1 Hloop1);
         [ now intros [] | rewrite Hs; discriminate ]
       | rewrite <- Hps in *; lia ]). }
  assert (v1 = with_parts_before ps
                 {| Decode.state := Decode.READY; Decode.offset := offset + k;
                    Decode.parts := [] |}) as Hv1.
  { destruct v1 as [s o p]. unfold with_parts_before. cbn in *. subst.
    rewrite app_nil_r. f_equal. lia. }
  apply (loop_frame bits ps) in Hloop2. rewrite <- Hv1, Hlen in Hloop2.
  unfold Decode.Any.
  rewrite (bind_of_Return _ _ _ _ _
             (loop_resume bits m (more_parts m maxParts) more
                ltac:(intros m' Hm'; destruct maxParts as [n|]; [|discriminate];
                      injection Hm' as <-; specialize (Hpos n eq_refl); lia)
                fuel _ v1 _ log log1 log2 Hloop1 Hloop2)).
  unfold ret, with_parts_before. cbn [Decode.parts Decode.offset].
  rewrite Hqs. f_equal. f_equal. lia.
Qed.

Lemma Any_resumes_witness :
  Decode.Any (5 + 5) (bytes_of [105; 5; 0; 0; 0; 105; 7; 0; 0; 0]) 0
    (more_parts 1 None) []
  = Return {| Decode.res_parts := [IntegerMP 5] ++ [IntegerMP 7];
              Decode.bytesRead := 5 + 5 |} [].
Proof.
  apply (Any_resumes 5 5 (bytes_of [105; 5; 0; 0; 0; 105; 7; 0; 0; 0]) 0 1 5 5 None
           [IntegerMP 5] [IntegerMP 7] [] [] []).
  - reflexivity.
  - reflexivity.
  - discriminate.
  - reflexivity.
Defined.

Lemma undefined_warnings_S (k : nat) :
  undefined_warnings (S k)
  = ("W", Decode.unknown_type_text None (- Z.of_nat (S k))) :: undefined_warnings k.
Proof.
  unfold undefined_warnings. cbn [seq map]. f_equal.
  rewrite <- seq_shift, map_map. apply map_ext. intros i.
  do 2 f_equal. lia.
Qed.

(** Below the buffer every position reads as [undefined], an unknown
    signature: the loop walks up to offset 0, one warning a position. *)
Lemma loop_below_buffer (bits : list byte) (maxParts : option Z) (ps : list Value)
    (fuel : nat) :
  Decode.lt_maxParts (JS.length ps) maxParts = true ->
  forall (k : nat) (log : Messages),
    Decode.loop (k + fuel) bits maxParts
      {| Decode.state := Decode.READY; Decode.offset := - Z.of_nat k;
         Decode.parts := ps |} log
    = Decode.loop fuel bits maxParts
        {| Decode.state := Decode.READY; Decode.offset := 0; Decode.parts := ps |}
        (log ++ undefined_warnings k).
Proof.
  intros Hcount. induction k as [|k IH]; intros log.
  - cbn [Nat.add undefined_warnings seq map Z.of_nat Z.opp]. now rewrite app_nil_r.
  - change (S k + fuel)%nat with (S (k + fuel)).
    rewrite loop_iterate.
    + on_step ltac:(fun any bits v log =>
        rewrite (bind_of_Return _ _ _ _ _
                   (step_READY_unknown any bits v log eq_refl
                      ltac:(cbn [Decode.offset];
                            now rewrite get_out_of_range by lia)))).
      cbn [Decode.offset Decode.parts].
      rewrite get_out_of_range by lia.
      replace (- Z.of_nat (S k) + 1) with (- Z.of_nat k) by lia.
      rewrite IH, undefined_warnings_S, <- app_assoc. reflexivity.
    + unfold Decode.guard. cbn [Decode.offset Decode.parts]. rewrite Hcount.
      rewrite andb_true_r. apply Z.ltb_lt.
      pose proof (length_nonneg bits). lia.
Qed.

(** X16. A call of [Mma.Decode.Any] at the negative offset [- k], with
    [maxParts] absent or positive, first logs [k] warnings, one for each
    position below the buffer, where the byte reads as [undefined]; from
    there on it does what the call at offset 0 does, and counts [k] bytes
    more. *)
Theorem Any_below_buffer (k fuel : nat) (bits : list byte) (maxParts : option Z)
    (log : Messages) :
  (forall m, maxParts = Some m -> 0 < m) ->
  Decode.Any (k + fuel) bits (- Z.of_nat k) maxParts log
  = bind (Decode.Any fuel bits 0 maxParts)
      (fun r => ret {| Decode.res_parts := Decode.res_parts r;
                       Decode.bytesRead := Decode.bytesRead r + Z.of_nat k |})
      (log ++ undefined_warnings k).
Proof.
  intros Hpos. unfold Decode.Any.
  rewrite bind_assoc.
  unfold bind at 1.
  rewrite loop_below_buffer.
  - unfold bind, ret.
    destruct (Decode.loop fuel bits maxParts _ _); try reflexivity.
    cbn [Decode.res_parts Decode.bytesRead]. do 2 f_equal. lia.
  - destruct maxParts as [m|]; [|reflexivity].
    cbn [Decode.lt_maxParts]. apply Z.ltb_lt. specialize (Hpos m eq_refl).
    unfold JS.length. cbn. lia.
Qed.

Lemma Any_below_buffer_witness :
  Decode.Any (2 + 3) (bytes_of [105; 5; 0; 0; 0]) (- Z.of_nat 2) (Some 1) []
  = Return {| Decode.res_parts := [IntegerMP 5]; Decode.bytesRead := 7 |}
      [("W", "Decode.Any (READY): byte undefined (" ++ String.String Ascii.zero
               ") at offset -2 is not a known type signature")%string;
       ("W", "Decode.Any (READY): byte undefined (" ++ String.String Ascii.zero
               ") at offset -1 is not a known type signature")%string].
Proof.
  rewrite (Any_below_buffer 2 3 (bytes_of [105; 5; 0; 0; 0]) (Some 1) []).
  - reflexivity.
  - intros m [= <-]. lia.
Defined.

(** ** Expression entries without a head *)

(** X17. An expression entry with no head to read makes the decoder throw.
    Where it reads the signature [f] and the buffer goes on after it, but
    ends with the part count or within it, or the part count is negative,
    the nested call reads nothing, the head is [undefined], and
    [Mma.Expression] fails: nothing of what was decoded so far is
    returned. *)
Theorem expression_without_head (fuel : nat) (bits : list byte)
    (maxParts : option Z) (v : Decode.Vars) (log : Messages)
    (Hstate : Decode.state v = Decode.READY)
    (Hbyte : JS.get bits (Decode.offset v) = Some "f"%byte)
    (Hpayload : Decode.offset v + 1 < JS.length bits)
    (Hcount : Decode.lt_maxParts (JS.length (Decode.parts v)) maxParts = true)
    (Hhead : JS.length bits <= Decode.offset v + 1 + 4 \/
             Decode.Int32 bits (Decode.offset v + 1) < 0) :
  Decode.loop (S (S (S fuel))) bits maxParts v log
  = Throw (MmaError (String.append "Mma.js ERROR: " head_error))
      (log ++ [("E", head_error)]).
Proof.
  rewrite (loop_at_signature (S fuel) bits maxParts v log "f"%byte Decode.EXPRESSION)
    by (assumption || reflexivity).
  on_step ltac:(fun any bits v log =>
    rewrite (bind_eq _ _ _ _ (step_EXPRESSION any bits v log eq_refl))).
  cbn [Decode.offset Decode.parts].
  assert (Decode.Any (S fuel) bits (Decode.offset v + 1 + 4)
            (Some (Decode.Int32 bits (Decode.offset v + 1) + 1)) log
          = Return {| Decode.res_parts := []; Decode.bytesRead := 0 |} log) as Hcall.
  { assert (Decode.guard bits (Some (Decode.Int32 bits (Decode.offset v + 1) + 1))
              {| Decode.state := Decode.READY; Decode.offset := Decode.offset v + 1 + 4;
                 Decode.parts := [] |} = false) as Hguard.
    { apply guard_false. cbn [Decode.offset Decode.parts].
      destruct Hhead as [Hend|Hneg]; [now left | right].
      eexists. split; [reflexivity|]. unfold JS.length. cbn [List.length]. lia. }
    unfold Decode.Any.
    rewrite (bind_of_Return _ _ _ _ _ (loop_exit fuel _ _ _ log Hguard)).
    unfold ret. cbn [Decode.parts Decode.offset]. do 2 f_equal. lia. }
  rewrite !bind_assoc, (bind_of_Return _ _ _ _ _ Hcall).
  reflexivity.
Qed.

Lemma expression_without_head_witness :
  Decode.Any 5 (bytes_of [105; 1; 0; 0; 0; 102; 2; 0; 0; 0]) 0 None []
  = Throw (MmaError "Mma.js ERROR: Expression: head must be an Mma.Symbol")
      [("E", "Expression: head must be an Mma.Symbol")].
Proof.
  unfold Decode.Any, bind at 1.
  change (Decode.loop 5 (bytes_of [105; 1; 0; 0; 0; 102; 2; 0; 0; 0]) None
            {| Decode.state := Decode.READY; Decode.offset := 0; Decode.parts := [] |} [])
    with (Decode.loop 3 (bytes_of [105; 1; 0; 0; 0; 102; 2; 0; 0; 0]) None
            {| Decode.state := Decode.READY; Decode.offset := 5;
               Decode.parts := [IntegerMP 1] |} []).
  assert (JS.length (bytes_of [105; 1; 0; 0; 0; 102; 2; 0; 0; 0]) <= 5 + 1 + 4) as Hend
    by (vm_compute; discriminate).
  rewrite (expression_without_head 0 (bytes_of [105; 1; 0; 0; 0; 102; 2; 0; 0; 0]) None
             {| Decode.state := Decode.READY; Decode.offset := 5;
                Decode.parts := [IntegerMP 1] |} []
             eq_refl eq_refl eq_refl eq_refl (or_introl Hend)).
  reflexivity.
Defined.
